(** * clone_client_env: the orchestrator [CloneEnv] of clone_env.py

    A shallow embedding of [src/clone_client_env/clone_env.py].

    The Python object, the resources it shares with its two worker
    processes (command queue, observation lock, manager lists) and the
    worker handles live in one record, [CloneEnv].  Methods are
    computations in a small monad [M] over a [World]: the record, the
    hardware client, the wall clock, the schedule of the worker
    processes and a trace of the effects performed so far.  A method
    returns, raises, blocks for ever, or (the [while] loop of
    [keep_step] only) runs out of fuel.

    Floats are binary64 ([PrimFloat.float]), as Python's are. *)

From Stdlib Require Import String List Bool Arith Lia.
From Stdlib Require Import Floats.PrimFloat.
Import ListNotations.

(* ================================================================= *)
(** ** Constants and data *)

Definition CLIENT_TIMEOUT : float := 0x1.26e978d4fdf3bp-8%float. (* 0.0045 *)
Definition FULL_LOOSE_TIME : float := 0.5%float.

Definition ObservationVector := list float.
Definition ActionVector := list float.

(** [numpy.array(x)]: a one-dimensional array of floats, or the
    zero-dimensional object array that [numpy.array(None)] builds. *)
Inductive ndarray : Type :=
| array (l : list float)
| array_of_None.

Definition len (a : ndarray) : nat :=
  match a with array l => length l | array_of_None => 0 end.

(** [numpy.zeros(n)] and the broadcast [a - 1]. *)
Definition numpy_zeros (n : nat) : list float := repeat 0%float n.
Definition broadcast_sub (a : list float) (c : float) : list float :=
  map (fun x => (x - c)%float) a.

(** Exceptions.  [CloneEnvError msg cause] is [raise CloneEnvError(msg)],
    with [cause = Some err] for [raise ... from err]. *)
Inductive exn : Type :=
| CloneEnvError (msg : string) (cause : option string)
| TypeError (msg : string)
| ClientError (msg : string).

Definition comm_not_initialized : string :=
  "Communication worker is not initialized. Please connect to the robot first.".
Definition ctrl_not_initialized : string :=
  "Control worker is not initialized. Please connect to the robot first.".

(* ================================================================= *)
(** ** Worker handles and the hardware client *)

Inductive lifecycle : Type := NotStarted | Running | Terminated.

(** Modelled from the spec: the classes [CommWorker] (comm_worker.py) and
    [CtrlWorker] (ctrl_worker.py) are not part of the sources at hand.  A
    worker handle carries a lifecycle state (not-started, running,
    terminated) and an optional captured fault, the pair (error,
    diagnostic trace) that [exception] reads. *)
Record WorkerHandle : Type := mkWorker {
  alive : lifecycle;
  exception : option (string * string) }.

Definition new_worker : WorkerHandle := mkWorker NotStarted None.

(** The two handles the orchestrator holds, as references into the store. *)
Inductive worker_id : Type := Comm | Ctrl.

(** Modelled from the spec: [clone_client_env.utils.client_connection]
    and the hardware client it yields are not part of the sources at
    hand.  The client exposes the muscle count and three lifecycle calls;
    each call, and opening the connection, completes ([None]) or raises
    ([Some msg]). *)
Record HardwareClient : Type := mkClient {
  connection : option string;
  number_of_muscles : nat;
  start_pressuregen : option string;
  wait_for_desired_pressure : option string;
  stop_pressuregen : option string }.

(* ================================================================= *)
(** ** The orchestrator object and what it shares with the workers *)

(** [maxsize] of [mp.Queue(maxsize=1)]. *)
Definition maxsize : nat := 1.

Record CloneEnv : Type := mkEnv {
  no_actions : nat;
  _hostname : string;
  _timeout : float;
  _actions_queue : list ActionVector; (* oldest first *)
  _obs_lock : bool;                   (* [true] while held *)
  _current_obs : option (list float);
  _comm_worker : option WorkerHandle;
  _current_actions : option (list float);
  _ctrl_worker : option WorkerHandle }.

(** [CloneEnv.__init__].  The duplex pipe between the workers is never
    touched by the orchestrator and carries no state here. *)
Definition init (hostname : string) (timeout : float) : CloneEnv :=
  {| no_actions := 0;
     _hostname := hostname;
     _timeout := timeout;
     _actions_queue := [];
     _obs_lock := false;
     _current_obs := None;
     _comm_worker := None;
     _current_actions := None;
     _ctrl_worker := None |}.

Definition set_no_actions (n : nat) (e : CloneEnv) : CloneEnv :=
  mkEnv n (_hostname e) (_timeout e) (_actions_queue e) (_obs_lock e)
        (_current_obs e) (_comm_worker e) (_current_actions e) (_ctrl_worker e).
Definition set_actions_queue (q : list ActionVector) (e : CloneEnv) : CloneEnv :=
  mkEnv (no_actions e) (_hostname e) (_timeout e) q (_obs_lock e)
        (_current_obs e) (_comm_worker e) (_current_actions e) (_ctrl_worker e).
Definition set_obs_lock (b : bool) (e : CloneEnv) : CloneEnv :=
  mkEnv (no_actions e) (_hostname e) (_timeout e) (_actions_queue e) b
        (_current_obs e) (_comm_worker e) (_current_actions e) (_ctrl_worker e).
Definition set_current_obs (o : option (list float)) (e : CloneEnv) : CloneEnv :=
  mkEnv (no_actions e) (_hostname e) (_timeout e) (_actions_queue e) (_obs_lock e)
        o (_comm_worker e) (_current_actions e) (_ctrl_worker e).
Definition set_comm_worker (h : option WorkerHandle) (e : CloneEnv) : CloneEnv :=
  mkEnv (no_actions e) (_hostname e) (_timeout e) (_actions_queue e) (_obs_lock e)
        (_current_obs e) h (_current_actions e) (_ctrl_worker e).
Definition set_current_actions (o : option (list float)) (e : CloneEnv) : CloneEnv :=
  mkEnv (no_actions e) (_hostname e) (_timeout e) (_actions_queue e) (_obs_lock e)
        (_current_obs e) (_comm_worker e) o (_ctrl_worker e).
Definition set_ctrl_worker (h : option WorkerHandle) (e : CloneEnv) : CloneEnv :=
  mkEnv (no_actions e) (_hostname e) (_timeout e) (_actions_queue e) (_obs_lock e)
        (_current_obs e) (_comm_worker e) (_current_actions e) h.

Definition handle (r : worker_id) (e : CloneEnv) : option WorkerHandle :=
  match r with Comm => _comm_worker e | Ctrl => _ctrl_worker e end.
Definition set_handle (r : worker_id) (h : option WorkerHandle) (e : CloneEnv)
  : CloneEnv :=
  match r with Comm => set_comm_worker h e | Ctrl => set_ctrl_worker h e end.

(** A worker acts only while its process runs and has captured no fault. *)
Definition active (h : option WorkerHandle) : bool :=
  match h with
  | Some (mkWorker Running None) => true
  | _ => false
  end.

(* ================================================================= *)
(** ** What the worker processes do *)

(** Modelled from the spec: the bodies of the two worker processes are
    not part of the sources at hand.  Per its contract the comm worker
    takes the observation lock, writes a reading into the shared buffer
    while holding it, and releases it; the control worker receives from
    the command channel; either may capture a fault (cause, diagnostic
    trace) in its slot, once, and does nothing afterwards.  A terminated
    process does nothing.  The events are those of the two workers the
    orchestrator currently holds: processes that a second [connect()]
    replaced are not represented.  [CtrlGet] is a receive that finds a
    vector; scheduled while the channel is empty it finds none, the
    control worker goes on waiting and a later [CtrlGet] stands for its
    receive. *)
Inductive worker_event : Type :=
| CommAcquire
| CommWrite (obs : ObservationVector)
| CommRelease
| CommFault (err trace : string)
| CtrlGet
| CtrlFault (err trace : string).

(** Modelled from the spec: the effect of one action of a worker on the
    shared state.  The comm worker writes only while it holds the lock;
    a worker that is not running, or has captured a fault, does
    nothing. *)
Definition apply_event (ev : worker_event) (e : CloneEnv) : CloneEnv :=
  match ev with
  | CommAcquire =>
      if active (_comm_worker e) && negb (_obs_lock e)
      then set_obs_lock true e else e
  | CommWrite obs =>
      if active (_comm_worker e) && _obs_lock e
      then set_current_obs (Some obs) e else e
  | CommRelease =>
      if active (_comm_worker e) && _obs_lock e
      then set_obs_lock false e else e
  | CommFault err trace =>
      if active (_comm_worker e)
      then set_comm_worker (Some (mkWorker Running (Some (err, trace)))) e
      else e
  | CtrlGet =>
      if active (_ctrl_worker e)
      then set_actions_queue (tl (_actions_queue e)) e else e
  | CtrlFault err trace =>
      if active (_ctrl_worker e)
      then set_ctrl_worker (Some (mkWorker Running (Some (err, trace)))) e
      else e
  end.

(** What the workers do between two actions of the orchestrator. *)
Definition batch := list worker_event.

Definition apply_batch (b : batch) (e : CloneEnv) : CloneEnv :=
  fold_left (fun e' ev => apply_event ev e') b e.

(* ================================================================= *)
(** ** Worlds, outcomes and the monad *)

(** Effects of the orchestrator that leave its process. *)
Inductive event : Type :=
| EvPut (actions : ActionVector)
| EvStart (r : worker_id)
| EvTerminate (r : worker_id)
| EvStartPressuregen
| EvWaitForDesiredPressure
| EvStopPressuregen.

(** [clock n] is what the [n]-th call of [time.time()] returns; [sched]
    lists, for each coming action of the orchestrator on a shared
    resource, what the workers have done since the previous one; once it
    is used up the workers do nothing any more. *)
Record World : Type := mkWorld {
  env : CloneEnv;
  client : HardwareClient;
  clock : nat -> float;
  ticks : nat;
  sched : list batch;
  log : list event }.

Definition set_env (e : CloneEnv) (w : World) : World :=
  mkWorld e (client w) (clock w) (ticks w) (sched w) (log w).
Definition set_ticks (n : nat) (w : World) : World :=
  mkWorld (env w) (client w) (clock w) n (sched w) (log w).
Definition set_sched (s : list batch) (w : World) : World :=
  mkWorld (env w) (client w) (clock w) (ticks w) s (log w).
Definition set_log (l : list event) (w : World) : World :=
  mkWorld (env w) (client w) (clock w) (ticks w) (sched w) l.

Inductive outcome (A : Type) : Type :=
| Returned (a : A)
| Raised (e : exn)
| Blocked
| OutOfFuel.
Arguments Returned {A} a.
Arguments Raised {A} e.
Arguments Blocked {A}.
Arguments OutOfFuel {A}.

Definition M (A : Type) : Type := World -> outcome A * World.

Definition ret {A} (a : A) : M A := fun w => (Returned a, w).

Definition bind {A B} (m : M A) (f : A -> M B) : M B :=
  fun w =>
    match m w with
    | (Returned a, w') => f a w'
    | (Raised e, w') => (Raised e, w')
    | (Blocked, w') => (Blocked, w')
    | (OutOfFuel, w') => (OutOfFuel, w')
    end.

Definition raise {A} (e : exn) : M A := fun w => (Raised e, w).
Definition out_of_fuel {A} : M A := fun w => (OutOfFuel, w).

Declare Scope monad_scope.
Delimit Scope monad_scope with monad.
Notation "x <- c1 ;; c2" := (bind c1 (fun x => c2))
  (at level 61, c1 at next level, right associativity) : monad_scope.
Notation "c1 ;; c2" := (bind c1 (fun _ => c2))
  (at level 61, right associativity) : monad_scope.
Open Scope monad_scope.

Definition get_env : M CloneEnv := fun w => (Returned (env w), w).
Definition modify_env (f : CloneEnv -> CloneEnv) : M unit :=
  fun w => (Returned tt, set_env (f (env w)) w).
Definition emit (ev : event) : M unit :=
  fun w => (Returned tt, set_log (log w ++ [ev]) w).

(** [time.time()]. *)
Definition time_time : M float :=
  fun w => (Returned (clock w (ticks w)), set_ticks (S (ticks w)) w).

(** The workers run up to the orchestrator's next action. *)
Definition yield : M unit :=
  fun w => (Returned tt,
            set_sched (tl (sched w))
                      (set_env (apply_batch (hd [] (sched w)) (env w)) w)).

(** Waiting for a condition on the shared state: the workers run on, one
    batch at a time, until it holds; if they stop before, the wait never
    ends. *)
Fixpoint wait_until (ready : CloneEnv -> bool) (e : CloneEnv) (s : list batch)
  : bool * CloneEnv * list batch :=
  if ready e then (true, e, s)
  else match s with
       | [] => (false, e, [])
       | b :: s' => wait_until ready (apply_batch b e) s'
       end.

Definition await (ready : CloneEnv -> bool) : M unit :=
  fun w =>
    match wait_until ready (env w) (sched w) with
    | (true, e, s) => (Returned tt, set_sched s (set_env e w))
    | (false, e, s) => (Blocked, set_sched s (set_env e w))
    end.

(* ================================================================= *)
(** ** Primitives on the shared resources *)

(** [Queue.put(item)] on the bounded queue: blocks while the queue holds
    [maxsize] items. *)
Definition queue_put (item : ActionVector) : M unit :=
  yield ;;
  await (fun e => length (_actions_queue e) <? maxsize) ;;
  modify_env (fun e => set_actions_queue (_actions_queue e ++ [item]) e) ;;
  emit (EvPut item).

(** Modelled from the spec: [exception] of the worker classes, which are
    not part of the sources at hand, reads the worker's fault slot across
    the process boundary: [None], or the pair (error, trace). *)
Definition exception_of (r : worker_id) : M (option (string * string)) :=
  yield ;;
  e <- get_env ;;
  ret (match handle r e with Some h => exception h | None => None end).

(** Modelled from the spec: the lifecycle operations of the worker
    classes, which are not part of the sources at hand, are those of a
    standard process handle.  [mark st r] is the change of state they
    make to the handle [r]. *)
Definition mark (st : lifecycle) (r : worker_id) (e : CloneEnv) : CloneEnv :=
  match handle r e with
  | Some h => set_handle r (Some (mkWorker st (exception h))) e
  | None => e
  end.

(** Modelled from the spec: [worker.start()] sets the process running. *)
Definition start (r : worker_id) : M unit :=
  modify_env (mark Running r) ;;
  emit (EvStart r).

(** Modelled from the spec: [worker.terminate()] puts the handle in the
    terminated state whatever its state was; on a handle that is already
    terminated it changes nothing. *)
Definition terminate (r : worker_id) : M unit :=
  yield ;;
  modify_env (mark Terminated r) ;;
  emit (EvTerminate r).

(** [with self._obs_lock: return numpy.array(self._current_obs)]: the
    lock is taken once free; the copy is made and the lock released
    before any worker runs again. *)
Definition snapshot_under_lock : M ndarray :=
  yield ;;
  await (fun e => negb (_obs_lock e)) ;;
  e <- get_env ;;
  ret (match _current_obs e with
       | Some l => array l
       | None => array_of_None
       end).

(** Modelled from the spec: [with client_connection(self._hostname) as
    (loop, client)], of [clone_client_env.utils], yields the hardware
    client or raises. *)
Definition client_connection : M HardwareClient :=
  fun w =>
    match connection (client w) with
    | Some msg => (Raised (ClientError msg), w)
    | None => (Returned (client w), w)
    end.

(** [loop.run_until_complete(call)]: the call completes, which the
    trace records, or raises. *)
Definition run_until_complete (result : option string) (ev : event) : M unit :=
  match result with
  | Some msg => raise (ClientError msg)
  | None => emit ev
  end.

(* ================================================================= *)
(** ** The methods of [CloneEnv] *)

(** The property [comm_worker] (lines 41-49). *)
Definition comm_worker : M worker_id :=
  e <- get_env ;;
  match _comm_worker e with
  | None => raise (CloneEnvError comm_not_initialized None)
  | Some _ => ret Comm
  end.

(** The property [ctrl_worker] (lines 51-59). *)
Definition ctrl_worker : M worker_id :=
  e <- get_env ;;
  match _ctrl_worker e with
  | None => raise (CloneEnvError ctrl_not_initialized None)
  | Some _ => ret Ctrl
  end.

(** [force_close] (lines 124-127). *)
Definition force_close : M unit :=
  c <- comm_worker ;;
  terminate c ;;
  c' <- ctrl_worker ;;
  terminate c'.

(** The three lines that [get_obs] (69-71) and [step] (90-92) share:
    [err, trace = self.comm_worker.exception; self.force_close();
     raise CloneEnvError(trace) from err]. *)
Definition surface_fault {A} : M A :=
  c <- comm_worker ;;
  x <- exception_of c ;;
  match x with
  | Some (err, trace) =>
      force_close ;;
      raise (CloneEnvError trace (Some err))
  | None => raise (TypeError "cannot unpack non-iterable NoneType object")
  end.

(** [get_obs] (lines 61-74). *)
Definition get_obs : M ndarray :=
  c <- comm_worker ;;
  x <- exception_of c ;;
  match x with
  | Some _ => surface_fault
  | None => snapshot_under_lock
  end.

(** [step] (lines 76-92). *)
Definition step (actions : ActionVector) : M unit :=
  queue_put actions ;;
  c <- comm_worker ;;
  x <- exception_of c ;;
  match x with
  | Some _ => surface_fault
  | None => ret tt
  end.

(** [_start_client] (lines 94-98). *)
Definition _start_client : M unit :=
  cl <- client_connection ;;
  modify_env (set_no_actions (number_of_muscles cl)) ;;
  run_until_complete (start_pressuregen cl) EvStartPressuregen ;;
  run_until_complete (wait_for_desired_pressure cl) EvWaitForDesiredPressure.

(** [connect] (lines 100-122). *)
Definition connect : M unit :=
  _start_client ;;
  modify_env (fun e =>
    set_current_obs (Some (repeat 0%float (no_actions e))) e) ;;
  modify_env (fun e =>
    set_current_actions (Some (repeat 0%float (no_actions e))) e) ;;
  modify_env (set_comm_worker (Some new_worker)) ;;
  modify_env (set_ctrl_worker (Some new_worker)) ;;
  c <- comm_worker ;;
  start c ;;
  c' <- ctrl_worker ;;
  start c'.

(** [keep_step] (lines 129-133).  The [while] loop runs on fuel. *)
Fixpoint keep_step_loop (fuel : nat) (actions : ActionVector)
         (start_time period : float) : M unit :=
  match fuel with
  | O => out_of_fuel
  | S fuel' =>
      now <- time_time ;;
      if (now - start_time <? period)%float
      then step actions ;; keep_step_loop fuel' actions start_time period
      else ret tt
  end.

Definition keep_step (fuel : nat) (actions : ActionVector) (period : float)
  : M unit :=
  start_time <- time_time ;;
  keep_step_loop fuel actions start_time period.

(** [loose_all] (lines 135-138). *)
Definition loose_all (fuel : nat) (period : float) : M unit :=
  e <- get_env ;;
  let all_loose := broadcast_sub (numpy_zeros (no_actions e)) 1%float in
  keep_step fuel all_loose period.

(** [reset] (lines 148-163): [actions = None] is the default. *)
Definition reset (fuel : nat) (actions : option ActionVector) (period : float)
  : M unit :=
  match actions with
  | None => loose_all fuel FULL_LOOSE_TIME
  | Some a => keep_step fuel a period
  end ;;
  get_obs ;;
  ret tt.

(** [close] (lines 140-146). *)
Definition close (fuel : nat) : M unit :=
  reset fuel None FULL_LOOSE_TIME ;;
  cl <- client_connection ;;
  run_until_complete (stop_pressuregen cl) EvStopPressuregen ;;
  force_close.

(** The public operations, and a caller invoking them one after the
    other (stopping at the first that does not return). *)
Inductive call : Type :=
| Connect
| GetObs
| Step (actions : ActionVector)
| KeepStep (actions : ActionVector) (period : float)
| LooseAll (period : float)
| Reset (actions : option ActionVector) (period : float)
| Close
| ForceClose.

Definition run_call (fuel : nat) (c : call) : M unit :=
  match c with
  | Connect => connect
  | GetObs => get_obs ;; ret tt
  | Step a => step a
  | KeepStep a p => keep_step fuel a p
  | LooseAll p => loose_all fuel p
  | Reset a p => reset fuel a p
  | Close => close fuel
  | ForceClose => force_close
  end.

Fixpoint run_calls (fuel : nat) (cs : list call) : M unit :=
  match cs with
  | [] => ret tt
  | c :: cs' => run_call fuel c ;; run_calls fuel cs'
  end.

(** A world around a freshly constructed [CloneEnv]. *)
Definition fresh_world (hostname : string) (cl : HardwareClient)
           (clk : nat -> float) (s : list batch) : World :=
  mkWorld (init hostname CLIENT_TIMEOUT) cl clk 0 s [].

(** Worlds to run the methods in: a hand of three muscles, a clock that
    advances a quarter of a second between two readings, and workers
    that stay idle, drain the command channel, or stream readings. *)
Fixpoint linear_clock (dt : float) (n : nat) : float :=
  match n with
  | O => 0%float
  | S k => (linear_clock dt k + dt)%float
  end.

Definition client3 : HardwareClient := mkClient None 3 None None None.


Definition w_fresh : World :=
  fresh_world "clonepiext" client3 (linear_clock 0.25) [].
Definition w_connected : World := snd (connect w_fresh).
Definition w_draining : World := set_sched (repeat [CtrlGet] 40) w_connected.
Definition w_comm_fault : World :=
  set_env (apply_event (CommFault "OSError" "Traceback") (env w_connected))
          w_connected.
Definition w_ctrl_fault : World :=
  set_env (apply_event (CtrlFault "OSError" "Traceback") (env w_connected))
          w_connected.

(** A connected environment whose client now fails to start the pressure
    generation, and the environment a fault-triggered teardown leaves. *)
Definition w_failing_client : World :=
  mkWorld (env w_connected)
          (mkClient None 5 (Some "no pressure"%string) None None)
          (linear_clock 0.25) 0 [] [].
Definition w_torn_down : World := snd (step [1; 0; -1]%float w_comm_fault).

Definition alive_of (r : worker_id) (e : CloneEnv) : option lifecycle :=
  option_map alive (handle r e).

(** The action vectors put on the command channel, oldest first. *)
Fixpoint sent (l : list event) : list ActionVector :=
  match l with
  | [] => []
  | EvPut a :: l' => a :: sent l'
  | _ :: l' => sent l'
  end.

Definition terminated (r : worker_id) (e : CloneEnv) : Prop :=
  exists h, handle r e = Some h /\ alive h = Terminated.

Definition connected (e : CloneEnv) : Prop :=
  _comm_worker e <> None /\ _ctrl_worker e <> None.

Definition comm_fault (x : string * string) (e : CloneEnv) : Prop :=
  exists h, _comm_worker e = Some h /\ exception h = Some x.

(* ================================================================= *)
(** ** Conditions on what the workers do *)

Definition stable_under (ok : worker_event -> Prop) (P : CloneEnv -> Prop)
  : Prop :=
  forall ev e, ok ev -> P e -> P (apply_event ev e).

Definition any_event (ev : worker_event) : Prop := True.

(** A write of the comm worker has the length [n]. *)
Definition write_ok (n : nat) (ev : worker_event) : Prop :=
  match ev with
  | CommWrite obs => length obs = n
  | _ => True
  end.


(* ================================================================= *)
(** ** Predicates on worlds and computations *)

(** The computation [m] keeps [I], however it ends. *)
Definition preserves {A} (I : World -> Prop) (m : M A) : Prop :=
  forall w, I w -> I (snd (m w)).


(** The computation [m] waits for nothing. *)
Definition never_blocks {A} (m : M A) : Prop :=
  forall w, fst (m w) <> Blocked.

(** The world once the workers have run up to the next action. *)
Definition yielded (w : World) : World := snd (yield w).

(** The world after [terminate r]. *)
Definition terminated_world (r : worker_id) (w : World) : World :=
  set_log (log w ++ [EvTerminate r])
          (set_env (mark Terminated r (env (yielded w))) (yielded w)).

(** The observation buffer holds [n] readings and the comm worker will
    only ever write [n] readings. *)
Definition obs_sized (n : nat) (w : World) : Prop :=
  (exists l, _current_obs (env w) = Some l /\ length l = n)
  /\ Forall (Forall (write_ok n)) (sched w).

(** A property of the vectors sent so far. *)
Definition on_sent (J : list ActionVector -> Prop) (w : World) : Prop :=
  J (sent (log w)).

(** The orchestrator's effects other than puts. *)
Definition not_a_put (ev : event) : Prop := sent [ev] = [].

(** [S] is [S0] followed by copies of [a]. *)
Definition extends_by (a : ActionVector) (S0 S : list ActionVector) : Prop :=
  exists k, S = S0 ++ repeat a k.

(** No clock reading was taken between [w0] and [w]. *)
Definition same_time (w0 w : World) : Prop :=
  clock w = clock w0 /\ ticks w = ticks w0.

(** The elapsed time that the [i]-th test of the loop sees, for a call
    of [keep_step] made in [w]. *)
Definition elapsed (w : World) (i : nat) : float :=
  (clock w (ticks w + 1 + i) - clock w (ticks w))%float.

(** The calls that connect. *)
Definition is_connect (c : call) : bool :=
  match c with
  | Connect => true
  | _ => false
  end.

(** No worker handle was ever created. *)
Definition unconnected (e : CloneEnv) : Prop :=
  _comm_worker e = None /\ _ctrl_worker e = None.

(** The stop handshake has not been made. *)
Definition never_stopped (w : World) : Prop :=
  ~ In EvStopPressuregen (log w).

(** A method ended without returning, raising the not-initialized error
    or waiting on the command channel. *)
Definition refused {A} (o : outcome A) : Prop :=
  o = Raised (CloneEnvError comm_not_initialized None) \/ o = Blocked.

(* ================================================================= *)
(** ** Properties of the state that the workers cannot undo *)


Ltac event_cases :=
  let ev := fresh "ev" in
  let e := fresh "e" in
  intros ev e; destruct ev; unfold apply_event;
  repeat match goal with
         | |- context [if ?b then _ else _] => destruct b eqn:?
         end;
  cbn.

Section Lifting.
Variable ok : worker_event -> Prop.
Variable P : CloneEnv -> Prop.
Hypothesis P_stable : stable_under ok P.

Lemma apply_batch_stable (b : batch) :
  forall e, Forall ok b -> P e -> P (apply_batch b e).
Proof.
  unfold apply_batch.
  induction b as [|ev b IH]; intros e Hb He; cbn; [exact He|].
  inversion Hb; subst. apply IH; [assumption|]. now apply P_stable.
Qed.

Lemma wait_until_stable (ready : CloneEnv -> bool) (s : list batch) :
  forall e, Forall (Forall ok) s -> P e ->
            P (snd (fst (wait_until ready e s)))
            /\ Forall (Forall ok) (snd (wait_until ready e s)).
Proof.
  induction s as [|b s IH]; intros e Hs He; cbn.
  - destruct (ready e); cbn; auto.
  - destruct (ready e); cbn; [auto|].
    inversion Hs; subst. apply IH; [assumption|].
    now apply apply_batch_stable.
Qed.
End Lifting.


Lemma wait_until_now (ready : CloneEnv -> bool) (s : list batch) (e : CloneEnv) :
  ready e = true -> wait_until ready e s = (true, e, s).
Proof. intros R. destruct s; cbn; now rewrite R. Qed.

(** Neither worker can act: the shared state stays as it is. *)
Lemma apply_event_inert (ev : worker_event) (e : CloneEnv) :
  active (_comm_worker e) = false -> active (_ctrl_worker e) = false ->
  apply_event ev e = e.
Proof.
  intros Hc Ht. destruct ev; unfold apply_event; rewrite ?Hc, ?Ht; reflexivity.
Qed.

Lemma apply_batch_inert (b : batch) (e : CloneEnv) :
  active (_comm_worker e) = false -> active (_ctrl_worker e) = false ->
  apply_batch b e = e.
Proof.
  intros Hc Ht. unfold apply_batch.
  induction b as [|ev b IH]; cbn; [reflexivity|].
  now rewrite apply_event_inert.
Qed.

Lemma wait_until_inert (ready : CloneEnv -> bool) (s : list batch) (e : CloneEnv) :
  active (_comm_worker e) = false -> active (_ctrl_worker e) = false ->
  ready e = false ->
  wait_until ready e s = (false, e, []).
Proof.
  intros Hc Ht R.
  induction s as [|b s IH]; cbn; rewrite R; [reflexivity|].
  now rewrite apply_batch_inert.
Qed.

(** The facts that survive whatever the workers do. *)
Lemma stable_comm_fault (x : string * string) :
  stable_under any_event (comm_fault x).
Proof.
  unfold comm_fault. event_cases; intros _ [h [Hh Hx]]; eauto.
  exfalso. rewrite Hh in *. destruct h as [a o]; cbn in Hx; subst o.
  destruct a; discriminate.
Qed.

Lemma stable_connected : stable_under any_event connected.
Proof.
  unfold connected. event_cases; intros _ [H1 H2]; auto; split; auto; discriminate.
Qed.

Lemma stable_terminated (r : worker_id) :
  stable_under any_event (terminated r).
Proof.
  unfold terminated.
  event_cases; intros _ [h [Hh Ha]]; eauto; destruct r; cbn in *; eauto;
    exfalso; rewrite Hh in *; destruct h as [a o]; cbn in Ha; subst a;
    discriminate.
Qed.


Lemma stable_queue_empty :
  stable_under any_event (fun e => _actions_queue e = []).
Proof. event_cases; intros _ H; auto. now rewrite H. Qed.

Lemma stable_obs_length (n : nat) :
  stable_under (write_ok n)
    (fun e => exists l, _current_obs e = Some l /\ length l = n).
Proof. event_cases; intros Hok H; eauto. Qed.


Lemma Forall_any (b : batch) : Forall any_event b.
Proof. induction b; constructor; unfold any_event; auto. Qed.

Lemma Forall_Forall_any (s : list batch) : Forall (Forall any_event) s.
Proof. induction s; constructor; auto using Forall_any. Qed.

Lemma apply_batch_always (P : CloneEnv -> Prop) (b : batch) (e : CloneEnv) :
  stable_under any_event P -> P e -> P (apply_batch b e).
Proof. intros HP He. eapply apply_batch_stable; eauto using Forall_any. Qed.

Lemma wait_until_always (P : CloneEnv -> Prop) ready (s : list batch) e :
  stable_under any_event P -> P e -> P (snd (fst (wait_until ready e s))).
Proof.
  intros HP He.
  eapply wait_until_stable; eauto using Forall_Forall_any.
Qed.

(* ================================================================= *)
(** ** Invariants of the methods *)

Lemma preserves_ret {A} (I : World -> Prop) (a : A) : preserves I (ret a).
Proof. intros w H; exact H. Qed.

Lemma preserves_raise {A} (I : World -> Prop) (x : exn) :
  preserves I (@raise A x).
Proof. intros w H; exact H. Qed.

Lemma preserves_out_of_fuel {A} (I : World -> Prop) :
  preserves I (@out_of_fuel A).
Proof. intros w H; exact H. Qed.

Lemma preserves_get_env (I : World -> Prop) : preserves I get_env.
Proof. intros w H; exact H. Qed.

Lemma preserves_client_connection (I : World -> Prop) :
  preserves I client_connection.
Proof.
  intros w H. unfold client_connection. now destruct (connection (client w)).
Qed.

Lemma preserves_bind {A B} (I : World -> Prop) (m : M A) (f : A -> M B) :
  preserves I m -> (forall a, preserves I (f a)) -> preserves I (bind m f).
Proof.
  intros Hm Hf w Hw. unfold bind. specialize (Hm w Hw).
  destruct (m w) as [[a|x| |] w']; cbn in *; auto.
  now apply Hf.
Qed.

Ltac pres_step :=
  first
    [ apply preserves_bind; [|intros ?]
    | apply preserves_ret
    | apply preserves_raise
    | apply preserves_out_of_fuel
    | apply preserves_get_env
    | apply preserves_client_connection
    | match goal with
      | |- preserves _ (match ?x with _ => _ end) => destruct x
      end ].

Section Invariant.
Variable I : World -> Prop.
(** Which vectors may be put, which effects may be traced. *)
Variable okput : ActionVector -> Prop.
Variable okev : event -> Prop.

Hypothesis I_yield : preserves I yield.
Hypothesis I_await : forall ready, preserves I (await ready).
Hypothesis I_time : preserves I time_time.
Hypothesis I_mark : forall st r, preserves I (modify_env (mark st r)).
Hypothesis I_emit : forall ev, okev ev -> preserves I (emit ev).
Hypothesis I_put : forall a, okput a -> preserves I (queue_put a).
Hypothesis ok_terminate : forall r, okev (EvTerminate r).
Hypothesis ok_stop : okev EvStopPressuregen.

Create HintDb pres discriminated.
#[local] Hint Resolve I_yield I_await I_time I_mark I_emit I_put
  ok_terminate ok_stop : pres.

Ltac pres := repeat (solve [auto with pres] || pres_step).

Lemma exception_of_preserves r : preserves I (exception_of r).
Proof. unfold exception_of. pres. Qed.

Lemma comm_worker_preserves : preserves I comm_worker.
Proof. unfold comm_worker. pres. Qed.

Lemma ctrl_worker_preserves : preserves I ctrl_worker.
Proof. unfold ctrl_worker. pres. Qed.

Lemma terminate_preserves r : preserves I (terminate r).
Proof. unfold terminate. pres. Qed.

#[local] Hint Resolve exception_of_preserves comm_worker_preserves
  ctrl_worker_preserves terminate_preserves : pres.

Lemma force_close_preserves : preserves I force_close.
Proof. unfold force_close. pres. Qed.

#[local] Hint Resolve force_close_preserves : pres.

Lemma surface_fault_preserves {A} : preserves I (@surface_fault A).
Proof. unfold surface_fault. pres. Qed.

Lemma snapshot_preserves : preserves I snapshot_under_lock.
Proof. unfold snapshot_under_lock. pres. Qed.

#[local] Hint Resolve surface_fault_preserves snapshot_preserves : pres.

Lemma get_obs_preserves : preserves I get_obs.
Proof. unfold get_obs. pres. Qed.

Lemma step_preserves a : okput a -> preserves I (step a).
Proof. intros Ha. unfold step. pres. Qed.

#[local] Hint Resolve get_obs_preserves step_preserves : pres.

Lemma keep_step_loop_preserves fuel a st p :
  okput a -> preserves I (keep_step_loop fuel a st p).
Proof.
  intros Ha. induction fuel as [|fuel IH]; cbn.
  - apply preserves_out_of_fuel.
  - apply preserves_bind; [exact I_time|]. intros now.
    destruct (now - st <? p)%float.
    + apply preserves_bind; [now apply step_preserves | intros _; exact IH].
    + apply preserves_ret.
Qed.

Lemma keep_step_preserves fuel a p :
  okput a -> preserves I (keep_step fuel a p).
Proof.
  intros Ha. unfold keep_step.
  apply preserves_bind; [exact I_time|]. intros st.
  now apply keep_step_loop_preserves.
Qed.

Hypothesis ok_any : forall a, okput a.

#[local] Hint Resolve keep_step_preserves ok_any : pres.

Lemma loose_all_preserves fuel p : preserves I (loose_all fuel p).
Proof. unfold loose_all. pres. Qed.

#[local] Hint Resolve loose_all_preserves : pres.

Lemma reset_preserves fuel a p : preserves I (reset fuel a p).
Proof. unfold reset. pres. Qed.

#[local] Hint Resolve reset_preserves : pres.

Lemma close_preserves fuel : preserves I (close fuel).
Proof. unfold close, run_until_complete. pres. Qed.

#[local] Hint Resolve close_preserves : pres.

Lemma run_call_preserves fuel c :
  c <> Connect -> preserves I (run_call fuel c).
Proof. intros Hc. destruct c; cbn; try congruence; pres. Qed.

Lemma run_calls_preserves fuel cs :
  ~ In Connect cs -> preserves I (run_calls fuel cs).
Proof.
  induction cs as [|c cs IH]; intros Hcs; cbn.
  - apply preserves_ret.
  - apply preserves_bind.
    + apply run_call_preserves. intros ->. apply Hcs. now left.
    + intros _. apply IH. intros H. apply Hcs. now right.
Qed.
End Invariant.

(** What [await] leaves behind. *)
Lemma await_world (ready : CloneEnv -> bool) (w : World) :
  snd (await ready w)
  = set_sched (snd (wait_until ready (env w) (sched w)))
      (set_env (snd (fst (wait_until ready (env w) (sched w)))) w).
Proof.
  unfold await.
  destruct (wait_until ready (env w) (sched w)) as [[[|] e] s]; reflexivity.
Qed.


Lemma Forall_tl {A} (P : A -> Prop) (l : list A) :
  Forall P l -> Forall P (tl l).
Proof. intros H; destruct l; cbn; [constructor | now inversion H]. Qed.

Lemma Forall_hd_batch (P : worker_event -> Prop) (s : list batch) :
  Forall (Forall P) s -> Forall P (hd [] s).
Proof. intros H; destruct s; cbn; [constructor | now inversion H]. Qed.


Lemma mark_current_obs st r e : _current_obs (mark st r e) = _current_obs e.
Proof. unfold mark. destruct (handle r e), r; reflexivity. Qed.

(** *** The command channel never holds more than [maxsize] vectors *)







(** *** What a put does to a bounded channel *)

Lemma sent_app (l1 l2 : list event) : sent (l1 ++ l2) = sent l1 ++ sent l2.
Proof.
  induction l1 as [|ev l1 IH]; cbn; [reflexivity|].
  destruct ev; cbn; now rewrite IH.
Qed.



Lemma never_blocks_bind {A B} (m : M A) (f : A -> M B) :
  never_blocks m -> (forall a, never_blocks (f a)) -> never_blocks (bind m f).
Proof.
  intros Hm Hf w. unfold bind. specialize (Hm w).
  destruct (m w) as [[a|x| |] w']; cbn in *; try discriminate; auto.
  apply Hf.
Qed.

Ltac no_block :=
  repeat first
    [ apply never_blocks_bind; [|intros ?]
    | match goal with
      | |- never_blocks (match ?x with _ => _ end) => destruct x
      end
    | solve [intros ?; cbn; discriminate] ].

Lemma terminate_never_blocks r : never_blocks (terminate r).
Proof. unfold terminate. no_block. Qed.

Lemma comm_worker_never_blocks : never_blocks comm_worker.
Proof. unfold comm_worker. no_block. Qed.

Lemma ctrl_worker_never_blocks : never_blocks ctrl_worker.
Proof. unfold ctrl_worker. no_block. Qed.

Lemma exception_of_never_blocks r : never_blocks (exception_of r).
Proof. unfold exception_of. no_block. Qed.

Lemma force_close_never_blocks : never_blocks force_close.
Proof.
  unfold force_close.
  repeat (solve [auto using terminate_never_blocks, comm_worker_never_blocks,
                             ctrl_worker_never_blocks]
          || (apply never_blocks_bind; [|intros ?])).
Qed.

Lemma surface_fault_never_blocks {A} : never_blocks (@surface_fault A).
Proof.
  unfold surface_fault.
  apply never_blocks_bind; [apply comm_worker_never_blocks | intros c].
  apply never_blocks_bind; [apply exception_of_never_blocks | intros x].
  destruct x as [[err trace]|]; [|intros w; cbn; discriminate].
  apply never_blocks_bind; [apply force_close_never_blocks | intros _].
  intros w; cbn; discriminate.
Qed.

Lemma step_blocked_iff (a : ActionVector) (w : World) :
  fst (step a w) = Blocked <-> fst (queue_put a w) = Blocked.
Proof.
  unfold step, bind at 1.
  destruct (queue_put a w) as [[[]|x| |] w'] eqn:E; cbn;
    try (split; intros; (reflexivity || discriminate)).
  split; [|discriminate]. intros H. exfalso. revert H.
  apply never_blocks_bind; [apply comm_worker_never_blocks | intros c].
  apply never_blocks_bind; [apply exception_of_never_blocks | intros x].
  destruct x; [apply surface_fault_never_blocks | intros w0; cbn; discriminate].
Qed.


(* ================================================================= *)
(** ** Running the methods on a connected environment *)

Lemma bind_returned {A B} (m : M A) (f : A -> M B) w a w' :
  m w = (Returned a, w') -> bind m f w = f a w'.
Proof. intros H. unfold bind. now rewrite H. Qed.
Arguments bind_returned {A B m f w a w'} _.

Lemma bind_blocked {A B} (m : M A) (f : A -> M B) w w' :
  m w = (Blocked, w') -> bind m f w = (Blocked, w').
Proof. intros H. unfold bind. now rewrite H. Qed.
Arguments bind_blocked {A B m f w w'} _.

Lemma bind_raised {A B} (m : M A) (f : A -> M B) w x w' :
  m w = (Raised x, w') -> bind m f w = (Raised x, w').
Proof. intros H. unfold bind. now rewrite H. Qed.
Arguments bind_raised {A B m f w x w'} _.

Lemma yielded_always (P : CloneEnv -> Prop) (w : World) :
  stable_under any_event P -> P (env w) -> P (env (yielded w)).
Proof. intros HP H. cbn. now apply apply_batch_always. Qed.

Lemma comm_worker_connected w :
  connected (env w) -> comm_worker w = (Returned Comm, w).
Proof.
  intros [H _]. unfold comm_worker, bind, get_env.
  destruct (_comm_worker (env w)); [reflexivity | contradiction].
Qed.

Lemma ctrl_worker_connected w :
  connected (env w) -> ctrl_worker w = (Returned Ctrl, w).
Proof.
  intros [_ H]. unfold ctrl_worker, bind, get_env.
  destruct (_ctrl_worker (env w)); [reflexivity | contradiction].
Qed.

Lemma exception_of_comm_fault x w :
  comm_fault x (env w) ->
  exception_of Comm w = (Returned (Some x), yielded w).
Proof.
  intros H. apply (yielded_always _ w (stable_comm_fault x)) in H.
  destruct H as [h [Hh Hx]].
  unfold exception_of, bind, get_env, ret. cbn in *. now rewrite Hh, Hx.
Qed.

Lemma terminate_eq r w : terminate r w = (Returned tt, terminated_world r w).
Proof. reflexivity. Qed.

Lemma mark_connected st r e : connected e -> connected (mark st r e).
Proof.
  unfold connected, mark. intros [H1 H2].
  destruct r; cbn; [destruct (_comm_worker e) | destruct (_ctrl_worker e)];
    cbn; split; auto; discriminate.
Qed.

Lemma mark_terminated r e :
  handle r e <> None -> terminated r (mark Terminated r e).
Proof.
  unfold terminated, mark. intros H.
  destruct (handle r e) as [h|] eqn:E; [|contradiction].
  destruct r; cbn; eauto.
Qed.

Lemma mark_keeps_terminated st r r' e :
  r <> r' -> terminated r' e -> terminated r' (mark st r e).
Proof.
  unfold terminated, mark. intros Hr H.
  destruct (handle r e); [|assumption].
  destruct r, r'; cbn in *; auto; congruence.
Qed.

Lemma force_close_connected w :
  connected (env w) ->
  fst (force_close w) = Returned tt
  /\ terminated Comm (env (snd (force_close w)))
  /\ terminated Ctrl (env (snd (force_close w)))
  /\ log (snd (force_close w)) = log w ++ [EvTerminate Comm; EvTerminate Ctrl].
Proof.
  intros H. unfold force_close.
  rewrite (bind_returned (comm_worker_connected w H)).
  rewrite (bind_returned (terminate_eq Comm w)).
  assert (H1 : connected (env (terminated_world Comm w))).
  { cbn. apply mark_connected. now apply apply_batch_always;
      [apply stable_connected|]. }
  assert (T1 : terminated Comm (env (terminated_world Comm w))).
  { cbn. apply mark_terminated. cbn.
    apply (apply_batch_always _ _ _ stable_connected H). }
  rewrite (bind_returned (ctrl_worker_connected _ H1)).
  rewrite terminate_eq. cbn [fst snd].
  split; [reflexivity|]. split; [|split].
  - cbn. apply mark_keeps_terminated; [discriminate|].
    now apply apply_batch_always; [apply stable_terminated|].
  - cbn. apply mark_terminated. cbn.
    apply (apply_batch_always _ _ _ stable_connected H1).
  - cbn. now rewrite <- app_assoc.
Qed.

Lemma surface_fault_spec {A} err trace w :
  connected (env w) -> comm_fault (err, trace) (env w) ->
  fst (@surface_fault A w) = Raised (CloneEnvError trace (Some err))
  /\ terminated Comm (env (snd (@surface_fault A w)))
  /\ terminated Ctrl (env (snd (@surface_fault A w)))
  /\ log (snd (@surface_fault A w))
     = log w ++ [EvTerminate Comm; EvTerminate Ctrl].
Proof.
  intros Hc Hf. unfold surface_fault.
  rewrite (bind_returned (comm_worker_connected w Hc)).
  rewrite (bind_returned (exception_of_comm_fault _ w Hf)).
  pose proof (yielded_always _ w stable_connected Hc) as Hc'.
  destruct (force_close_connected _ Hc') as (R & T1 & T2 & L).
  unfold bind. destruct (force_close (yielded w)) as [o w'].
  cbn in R; subst o. cbn in *. auto.
Qed.

Lemma get_obs_fault err trace w :
  connected (env w) -> comm_fault (err, trace) (env w) ->
  fst (get_obs w) = Raised (CloneEnvError trace (Some err))
  /\ terminated Comm (env (snd (get_obs w)))
  /\ terminated Ctrl (env (snd (get_obs w)))
  /\ log (snd (get_obs w)) = log w ++ [EvTerminate Comm; EvTerminate Ctrl].
Proof.
  intros Hc Hf. unfold get_obs.
  rewrite (bind_returned (comm_worker_connected w Hc)).
  rewrite (bind_returned (exception_of_comm_fault _ w Hf)).
  apply (@surface_fault_spec ndarray err trace (yielded w)).
  - now apply yielded_always; [apply stable_connected|].
  - now apply yielded_always; [apply stable_comm_fault|].
Qed.

(** A put returns or blocks, and leaves the worker handles alone. *)
Lemma queue_put_outcome a w :
  (fst (queue_put a w) = Returned tt
   /\ log (snd (queue_put a w)) = log w ++ [EvPut a])
  \/ (fst (queue_put a w) = Blocked /\ log (snd (queue_put a w)) = log w).
Proof.
  unfold queue_put, bind, yield, await. cbn.
  destruct (wait_until _ _ _) as [[[|] e] s]; cbn; auto.
Qed.

Lemma queue_put_handles (P : CloneEnv -> Prop) a w :
  stable_under any_event P ->
  (forall q e, P e -> P (set_actions_queue q e)) ->
  P (env w) -> P (env (snd (queue_put a w))).
Proof.
  intros HP Hq H. unfold queue_put, bind, yield, await. cbn.
  pose proof (wait_until_always P
    (fun e => length (_actions_queue e) <? maxsize)
    (tl (sched w)) (apply_batch (hd [] (sched w)) (env w)) HP
    (apply_batch_always P _ _ HP H)) as H'.
  destruct (wait_until _ _ _) as [[[|] e] s]; cbn in *; auto.
Qed.

Lemma queue_put_empty a w :
  _actions_queue (env w) = [] -> fst (queue_put a w) = Returned tt.
Proof.
  intros H. unfold queue_put, bind, yield, await. cbn.
  rewrite wait_until_now; [reflexivity|].
  now rewrite (apply_batch_always _ _ _ stable_queue_empty H).
Qed.

Lemma step_fault err trace a w :
  connected (env w) -> comm_fault (err, trace) (env w) ->
  (fst (step a w) = Blocked /\ log (snd (step a w)) = log w)
  \/ (fst (step a w) = Raised (CloneEnvError trace (Some err))
      /\ terminated Comm (env (snd (step a w)))
      /\ terminated Ctrl (env (snd (step a w)))
      /\ log (snd (step a w))
         = log w ++ [EvPut a; EvTerminate Comm; EvTerminate Ctrl]).
Proof.
  intros Hc Hf.
  assert (Hc' : connected (env (snd (queue_put a w)))).
  { apply queue_put_handles; auto using stable_connected. }
  assert (Hf' : comm_fault (err, trace) (env (snd (queue_put a w)))).
  { apply queue_put_handles; auto using stable_comm_fault. }
  destruct (queue_put_outcome a w) as [[R L]|[R L]];
    destruct (queue_put a w) as [o w'] eqn:E; cbn in R, L, Hc', Hf'; subst o;
    unfold step.
  - right. rewrite (bind_returned E).
    rewrite (bind_returned (comm_worker_connected w' Hc')).
    rewrite (bind_returned (exception_of_comm_fault _ w' Hf')).
    destruct (@surface_fault_spec unit err trace (yielded w'))
      as (R & T1 & T2 & L').
    + now apply yielded_always; [apply stable_connected|].
    + now apply yielded_always; [apply stable_comm_fault|].
    + repeat split; auto. rewrite L'. cbn. rewrite L. now rewrite <- app_assoc.
  - left. rewrite (bind_blocked E). cbn. auto.
Qed.

(** *** The observation buffer keeps its length *)

Lemma obs_sized_yield n : preserves (obs_sized n) yield.
Proof.
  intros w [H S]. split; cbn.
  - apply (apply_batch_stable _ _ (stable_obs_length n)); auto.
    now apply Forall_hd_batch.
  - now apply Forall_tl.
Qed.

Lemma obs_sized_await n ready : preserves (obs_sized n) (await ready).
Proof.
  intros w [H S]. rewrite await_world. unfold obs_sized; cbn.
  now apply (wait_until_stable _ _ (stable_obs_length n)).
Qed.

Lemma obs_sized_modify n f :
  (forall e, _current_obs (f e) = _current_obs e) ->
  preserves (obs_sized n) (modify_env f).
Proof. intros Hf w [H S]. split; cbn; [now rewrite Hf | exact S]. Qed.

Lemma obs_sized_put n a : preserves (obs_sized n) (queue_put a).
Proof.
  unfold queue_put.
  repeat (solve [auto using obs_sized_yield, obs_sized_await]
          || (apply preserves_bind; [|intros ?])).
  - now apply obs_sized_modify.
  - intros w H; exact H.
Qed.

Lemma obs_sized_run_calls n fuel cs :
  ~ In Connect cs -> preserves (obs_sized n) (run_calls fuel cs).
Proof.
  apply run_calls_preserves
    with (okput := fun _ => True) (okev := fun _ => True);
    auto using obs_sized_yield, obs_sized_await, obs_sized_put.
  - intros w H; exact H.
  - intros st r. apply obs_sized_modify. intros e. apply mark_current_obs.
  - intros ev _ w H; exact H.
Qed.

Lemma bind_inv_returned {A B} (m : M A) (f : A -> M B) w b w'' :
  bind m f w = (Returned b, w'') ->
  exists a w', m w = (Returned a, w') /\ f a w' = (Returned b, w'').
Proof.
  unfold bind. destruct (m w) as [[a|x| |] w']; intros H; try discriminate.
  eauto.
Qed.

Lemma surface_fault_no_return {A} w (a : A) w' :
  @surface_fault A w <> (Returned a, w').
Proof.
  unfold surface_fault. intros H.
  apply bind_inv_returned in H. destruct H as (c & w1 & _ & H).
  apply bind_inv_returned in H. destruct H as ([[err trace]|] & w2 & _ & H);
    [|discriminate].
  apply bind_inv_returned in H. destruct H as (u & w3 & _ & H).
  discriminate.
Qed.

Lemma snapshot_sized n w a w' :
  obs_sized n w -> snapshot_under_lock w = (Returned a, w') -> len a = n.
Proof.
  intros H E. unfold snapshot_under_lock in E.
  apply bind_inv_returned in E. destruct E as (u & w1 & E1 & E).
  apply bind_inv_returned in E. destruct E as (u' & w2 & E2 & E).
  pose proof (obs_sized_yield n w H) as H1. rewrite E1 in H1. cbn in H1.
  pose proof (obs_sized_await n (fun e => negb (_obs_lock e)) w1 H1) as H2.
  rewrite E2 in H2. cbn in H2.
  destruct H2 as [(l & Hl & Hn) _].
  unfold bind, get_env, ret in E. rewrite Hl in E.
  injection E as <- _. exact Hn.
Qed.

Lemma get_obs_sized n w a w' :
  obs_sized n w -> get_obs w = (Returned a, w') -> len a = n.
Proof.
  intros H E. unfold get_obs in E.
  apply bind_inv_returned in E. destruct E as (c & w1 & E1 & E).
  apply bind_inv_returned in E. destruct E as (x & w2 & E2 & E).
  assert (H1 : obs_sized n w1).
  { replace w1 with (snd (comm_worker w)) by now rewrite E1.
    apply comm_worker_preserves, H. }
  assert (H2 : obs_sized n w2).
  { replace w2 with (snd (exception_of c w1)) by now rewrite E2.
    eapply exception_of_preserves; eauto using obs_sized_yield. }
  destruct x.
  - now apply surface_fault_no_return in E.
  - eapply snapshot_sized; eassumption.
Qed.

(** *** [connect] when the handshake goes through, and the first read *)

Lemma connect_success w :
  connection (client w) = None ->
  start_pressuregen (client w) = None ->
  wait_for_desired_pressure (client w) = None ->
  let n := number_of_muscles (client w) in
  let w1 := snd (connect w) in
  fst (connect w) = Returned tt
  /\ no_actions (env w1) = n
  /\ _current_obs (env w1) = Some (repeat 0%float n)
  /\ _current_actions (env w1) = Some (repeat 0%float n)
  /\ _comm_worker (env w1) = Some (mkWorker Running None)
  /\ _ctrl_worker (env w1) = Some (mkWorker Running None)
  /\ _obs_lock (env w1) = _obs_lock (env w)
  /\ _actions_queue (env w1) = _actions_queue (env w)
  /\ sched w1 = sched w.
Proof.
  intros Hc Hs Hw n w1. subst n w1.
  unfold connect, _start_client, client_connection, run_until_complete, bind.
  cbn. rewrite Hc. cbn. rewrite Hs. cbn. rewrite Hw. cbn.
  repeat split; reflexivity.
Qed.


(** *** What is put on the command channel *)

Section OnSent.
Variable J : list ActionVector -> Prop.

Lemma on_sent_yield : preserves (on_sent J) yield.
Proof. intros w H; exact H. Qed.

Lemma on_sent_await ready : preserves (on_sent J) (await ready).
Proof. intros w H. rewrite await_world. exact H. Qed.

Lemma on_sent_time : preserves (on_sent J) time_time.
Proof. intros w H; exact H. Qed.

Lemma on_sent_mark st r : preserves (on_sent J) (modify_env (mark st r)).
Proof. intros w H; exact H. Qed.

Lemma on_sent_emit ev : not_a_put ev -> preserves (on_sent J) (emit ev).
Proof.
  intros Hev w H. unfold on_sent in *; cbn.
  rewrite sent_app, Hev, app_nil_r. exact H.
Qed.

Lemma on_sent_put a :
  (forall S, J S -> J (S ++ [a])) -> preserves (on_sent J) (queue_put a).
Proof.
  intros Ha w H. unfold on_sent in *.
  destruct (queue_put_outcome a w) as [[_ L]|[_ L]]; rewrite L.
  - rewrite sent_app. now apply Ha.
  - exact H.
Qed.
End OnSent.

(** A step that gets past its put has sent its vector, whatever follows. *)
Lemma step_sent a w :
  sent (log (snd (step a w))) = sent (log (snd (queue_put a w))).
Proof.
  unfold step, bind at 1.
  destruct (queue_put a w) as [[[]|x| |] w1]; cbn [snd]; try reflexivity.
  symmetry.
  assert (Hy := on_sent_yield (eq (sent (log w1)))).
  assert (Hm := on_sent_mark (eq (sent (log w1)))).
  assert (He := on_sent_emit (eq (sent (log w1)))).
  assert (P : preserves (on_sent (eq (sent (log w1))))
                (c <- comm_worker;;
                 x <- exception_of c;;
                 match x with
                 | Some _ => surface_fault
                 | None => ret tt
                 end)).
  { apply preserves_bind; [now apply comm_worker_preserves | intros c].
    apply preserves_bind; [now apply exception_of_preserves | intros x].
    destruct x; [|apply preserves_ret].
    apply surface_fault_preserves with (okev := not_a_put); auto;
      try (intros; reflexivity). }
  apply P. reflexivity.
Qed.

Lemma step_sends a w :
  (fst (step a w) = Blocked /\ sent (log (snd (step a w))) = sent (log w))
  \/ (fst (step a w) <> Blocked
      /\ sent (log (snd (step a w))) = sent (log w) ++ [a]).
Proof.
  rewrite step_sent.
  destruct (queue_put_outcome a w) as [[R L]|[R L]]; rewrite L.
  - right. split.
    + intros H. apply step_blocked_iff in H. congruence.
    + rewrite sent_app. reflexivity.
  - left. split; [now apply step_blocked_iff | reflexivity].
Qed.

Lemma extends_by_put a S0 S : extends_by a S0 S -> extends_by a S0 (S ++ [a]).
Proof.
  intros [k ->]. exists (S k).
  rewrite <- app_assoc. f_equal.
  change [a] with (repeat a 1). rewrite <- repeat_app.
  f_equal. lia.
Qed.

Lemma keep_step_sends fuel a p w :
  extends_by a (sent (log w)) (sent (log (snd (keep_step fuel a p w)))).
Proof.
  assert (P : preserves (on_sent (extends_by a (sent (log w))))
                (keep_step fuel a p)).
  { apply keep_step_preserves
      with (okput := eq a) (okev := not_a_put);
      auto using on_sent_yield, on_sent_await, on_sent_time, on_sent_mark,
                 on_sent_emit.
    all: try (intros; reflexivity).
    intros x <-. apply on_sent_put. apply extends_by_put. }
  apply P. exists 0. cbn. now rewrite app_nil_r.
Qed.

Lemma all_loose_eq n :
  broadcast_sub (numpy_zeros n) 1%float = repeat (-1)%float n.
Proof.
  unfold broadcast_sub, numpy_zeros.
  induction n as [|n IH]; cbn; [reflexivity|]. now rewrite IH.
Qed.

(** *** The loop of [keep_step] *)

Lemma same_time_await w0 ready : preserves (same_time w0) (await ready).
Proof. intros w H. rewrite await_world. exact H. Qed.

Lemma same_time_put w0 a : preserves (same_time w0) (queue_put a).
Proof.
  unfold queue_put.
  repeat (solve [apply same_time_await]
          || (apply preserves_bind; [|intros ?])
          || (intros w H; exact H)).
Qed.

Lemma step_same_time a w : same_time w (snd (step a w)).
Proof.
  assert (P : preserves (same_time w) (step a)).
  { apply step_preserves with (okput := fun _ => True) (okev := fun _ => True);
      auto using same_time_await, same_time_put;
      repeat intro; assumption. }
  apply P. split; reflexivity.
Qed.

Lemma keep_step_loop_returned fuel a st p :
  forall w w',
    keep_step_loop fuel a st p w = (Returned tt, w') ->
    clock w' = clock w
    /\ exists k,
        ticks w' = ticks w + S k
        /\ (forall i, i < k ->
                      (clock w (ticks w + i) - st <? p)%float = true)
        /\ (clock w (ticks w + k) - st <? p)%float = false
        /\ sent (log w') = sent (log w) ++ repeat a k.
Proof.
  induction fuel as [|fuel IH]; intros w w' H; cbn in H; [discriminate|].
  unfold bind at 1, time_time in H.
  destruct (clock w (ticks w) - st <? p)%float eqn:G.
  - apply bind_inv_returned in H. destruct H as ([] & w1 & E1 & H).
    apply IH in H. destruct H as (Hc & k & Ht & Hlt & Hge & Hs).
    destruct (step_same_time a (set_ticks (S (ticks w)) w)) as [Sc St].
    destruct (step_sends a (set_ticks (S (ticks w)) w)) as [[B _]|[_ L]];
      [rewrite E1 in B; discriminate|].
    rewrite E1 in Sc, St, L. cbn in Sc, St, L.
    rewrite Sc, St in *. split; [exact Hc|].
    exists (S k). repeat split.
    + lia.
    + intros [|i] Hi.
      * now rewrite Nat.add_0_r.
      * replace (ticks w + S i) with (S (ticks w) + i) by lia.
        apply Hlt. lia.
    + replace (ticks w + S k) with (S (ticks w) + k) by lia. exact Hge.
    + rewrite Hs, L. cbn. now rewrite <- app_assoc.
  - inversion H; subst; cbn. split; [reflexivity|].
    exists 0. repeat split.
    + lia.
    + intros i Hi. lia.
    + now rewrite Nat.add_0_r.
    + cbn. now rewrite app_nil_r.
Qed.

Lemma keep_step_returned fuel a p w w' :
  keep_step fuel a p w = (Returned tt, w') ->
  exists k,
    (forall i, i < k -> (elapsed w i <? p)%float = true)
    /\ (elapsed w k <? p)%float = false
    /\ sent (log w') = sent (log w) ++ repeat a k
    /\ ticks w' = ticks w + 2 + k.
Proof.
  unfold keep_step, bind, time_time. intros H.
  apply keep_step_loop_returned in H. cbn in H.
  destruct H as (_ & k & Ht & Hlt & Hge & Hs).
  exists k. unfold elapsed. repeat split.
  - intros i Hi. replace (ticks w + 1 + i) with (S (ticks w + i)) by lia.
    now apply Hlt.
  - replace (ticks w + 1 + k) with (S (ticks w + k)) by lia. exact Hge.
  - exact Hs.
  - lia.
Qed.

(** *** Teardown on handles that are already terminated *)

Lemma mark_terminated_noop r e : terminated r e -> mark Terminated r e = e.
Proof.
  unfold terminated, mark. intros (h & Hh & Ha). rewrite Hh.
  destruct h as [a x]; cbn in Ha; subst a.
  destruct e, r; cbn in *; subst; reflexivity.
Qed.

Lemma terminated_inactive r e : terminated r e -> active (handle r e) = false.
Proof.
  intros (h & Hh & Ha). rewrite Hh.
  destruct h as [a x]; cbn in Ha; subst a. reflexivity.
Qed.

Lemma terminated_connected e :
  terminated Comm e -> terminated Ctrl e -> connected e.
Proof.
  intros (h1 & H1 & _) (h2 & H2 & _). cbn in H1, H2.
  split; congruence.
Qed.

Lemma force_close_terminated w :
  terminated Comm (env w) -> terminated Ctrl (env w) ->
  fst (force_close w) = Returned tt /\ env (snd (force_close w)) = env w.
Proof.
  intros T1 T2.
  pose proof (terminated_connected _ T1 T2) as Hc.
  pose proof (terminated_inactive _ _ T1) as A1.
  pose proof (terminated_inactive _ _ T2) as A2. cbn in A1, A2.
  assert (E1 : env (terminated_world Comm w) = env w).
  { cbn. rewrite apply_batch_inert by assumption.
    now apply mark_terminated_noop. }
  unfold force_close.
  rewrite (bind_returned (comm_worker_connected w Hc)).
  rewrite (bind_returned (terminate_eq Comm w)).
  rewrite (bind_returned (ctrl_worker_connected (terminated_world Comm w)
                            ltac:(now rewrite E1))).
  rewrite terminate_eq. split; [reflexivity|].
  cbn [snd]. unfold terminated_world at 1. cbn [env set_log set_env].
  change (env (yielded (terminated_world Comm w)))
    with (apply_batch (hd [] (sched (terminated_world Comm w)))
                      (env (terminated_world Comm w))).
  rewrite E1. rewrite apply_batch_inert by assumption.
  now apply mark_terminated_noop.
Qed.

Lemma force_close_again n :
  forall w, terminated Comm (env w) -> terminated Ctrl (env w) ->
            fst (run_calls 0 (repeat ForceClose n) w) = Returned tt
            /\ env (snd (run_calls 0 (repeat ForceClose n) w)) = env w.
Proof.
  induction n as [|n IH]; intros w T1 T2; cbn; [auto|].
  destruct (force_close_terminated w T1 T2) as [R E].
  unfold bind. destruct (force_close w) as [o w'].
  cbn in R, E. subst o. rewrite <- E in T1, T2.
  destruct (IH w' T1 T2) as [R' E']. now rewrite R', E'.
Qed.

(** *** [reset] and [close] once the comm worker has captured a fault *)

Lemma loose_all_eq fuel p w :
  loose_all fuel p w
  = keep_step fuel (repeat (-1)%float (no_actions (env w))) p w.
Proof.
  unfold loose_all, bind, get_env. now rewrite all_loose_eq.
Qed.

Lemma keep_step_first fuel a p w :
  keep_step (S fuel) a p w
  = let w2 := set_ticks (S (S (ticks w))) w in
    if (elapsed w 0 <? p)%float
    then (step a ;; keep_step_loop fuel a (clock w (ticks w)) p) w2
    else (Returned tt, w2).
Proof.
  unfold elapsed. rewrite Nat.add_0_r, Nat.add_1_r.
  unfold keep_step, bind at 1, time_time. cbn [keep_step_loop].
  unfold bind at 1, time_time. cbn [ticks set_ticks clock].
  destruct (_ <? p)%float; reflexivity.
Qed.

Lemma reset_fault fuel p err trace w :
  connected (env w) -> comm_fault (err, trace) (env w) ->
  let r := reset (S fuel) None p w in
  let all_loose := repeat (-1)%float (no_actions (env w)) in
  (fst r = Blocked /\ log (snd r) = log w /\ _actions_queue (env w) <> [])
  \/ (fst r = Raised (CloneEnvError trace (Some err))
      /\ terminated Comm (env (snd r))
      /\ terminated Ctrl (env (snd r))
      /\ (((elapsed w 0 <? FULL_LOOSE_TIME)%float = true
           /\ log (snd r)
              = log w ++ [EvPut all_loose; EvTerminate Comm; EvTerminate Ctrl])
          \/ ((elapsed w 0 <? FULL_LOOSE_TIME)%float = false
              /\ log (snd r)
                 = log w ++ [EvTerminate Comm; EvTerminate Ctrl]))).
Proof.
  intros Hc Hf r all_loose. subst all_loose.
  assert (Er : r = reset (S fuel) None p w) by reflexivity. clearbody r.
  unfold reset in Er. unfold bind at 1 in Er.
  rewrite loose_all_eq, keep_step_first in Er. cbv zeta in Er.
  set (w2 := set_ticks (S (S (ticks w))) w) in Er.
  assert (Hc2 : connected (env w2)) by exact Hc.
  assert (Hf2 : comm_fault (err, trace) (env w2)) by exact Hf.
  destruct (elapsed w 0 <? FULL_LOOSE_TIME)%float.
  - destruct (step_fault err trace (repeat (-1)%float (no_actions (env w)))
                w2 Hc2 Hf2) as [[B L]|(R & T1 & T2 & L)];
      [assert (Hq : _actions_queue (env w) <> [])
        by (intros Hq; apply step_blocked_iff in B;
            rewrite (queue_put_empty _ w2 Hq) in B; discriminate)|];
      destruct (step _ w2) as [o w3] eqn:E; cbn in *; subst o.
    + rewrite (bind_blocked E) in Er. subst r. left. auto.
    + rewrite (bind_raised E) in Er. subst r. right. cbn. auto 6.
  - cbn beta iota in Er.
    destruct (get_obs_fault err trace w2 Hc2 Hf2) as (R & T1 & T2 & L).
    destruct (get_obs w2) as [o w3] eqn:E; cbn in *; subst o.
    rewrite (bind_raised E) in Er. subst r. right. cbn. auto 6.
Qed.

(* ================================================================= *)
(** ** The specification's claims *)

(** C1 (as amended).  On a connected environment whose comm worker has a
    fault in its slot, the next [get_obs()] raises [CloneEnvError]
    carrying the diagnostic trace and chained to the captured cause, and
    leaves both workers terminated.  The next [step()] does the same once
    its put on the command channel has gone through: it blocks for as
    long as the channel stays full, and cannot block when the channel is
    empty.  (The fault slot of the control worker is read by neither.) *)
Theorem comm_fault_surfaces (w : World) (err trace : string)
        (actions : ActionVector) :
  connected (env w) ->
  comm_fault (err, trace) (env w) ->
  (fst (get_obs w) = Raised (CloneEnvError trace (Some err))
   /\ terminated Comm (env (snd (get_obs w)))
   /\ terminated Ctrl (env (snd (get_obs w))))
  /\ ((fst (step actions w) = Blocked
       /\ fst (queue_put actions w) = Blocked)
      \/ (fst (step actions w) = Raised (CloneEnvError trace (Some err))
          /\ terminated Comm (env (snd (step actions w)))
          /\ terminated Ctrl (env (snd (step actions w)))))
  /\ (_actions_queue (env w) = [] ->
      fst (step actions w) = Raised (CloneEnvError trace (Some err))).
Proof.
  intros Hc Hf. split; [|split].
  - destruct (get_obs_fault err trace w Hc Hf) as (R & T1 & T2 & _). auto.
  - destruct (step_fault err trace actions w Hc Hf)
      as [[B _]|(R & T1 & T2 & _)]; [left | right; auto].
    split; [exact B | now apply step_blocked_iff].
  - intros Hq.
    destruct (step_fault err trace actions w Hc Hf) as [[B _]|(R & _)];
      [|exact R].
    apply step_blocked_iff in B.
    rewrite (queue_put_empty actions w Hq) in B. discriminate.
Qed.

Lemma comm_fault_surfaces_witness :
  fst (get_obs w_comm_fault) = Raised (CloneEnvError "Traceback" (Some "OSError"%string))
  /\ fst (step [1; 0; -1]%float w_comm_fault)
     = Raised (CloneEnvError "Traceback" (Some "OSError"%string)).
Proof.
  assert (Hc : connected (env w_comm_fault)) by (split; discriminate).
  assert (Hf : comm_fault ("OSError"%string, "Traceback"%string) (env w_comm_fault))
    by (eexists; split; reflexivity).
  destruct (comm_fault_surfaces w_comm_fault "OSError" "Traceback"
              [1; 0; -1]%float Hc Hf) as ((R & _) & _ & S).
  split; [exact R | apply S; reflexivity].
Defined.

(** C1 as stated fails for the control worker: with a fault in the slot
    of the control worker only, [get_obs()] and [step()] return normally
    and both workers keep running. *)
Lemma ctrl_fault_goes_unnoticed :
  handle Ctrl (env w_ctrl_fault)
  = Some (mkWorker Running (Some ("OSError"%string, "Traceback"%string)))
  /\ fst (get_obs w_ctrl_fault) = Returned (array [0; 0; 0]%float)
  /\ handle Comm (env (snd (get_obs w_ctrl_fault)))
     = Some (mkWorker Running None)
  /\ alive_of Ctrl (env (snd (get_obs w_ctrl_fault))) = Some Running
  /\ fst (step [1; 0; -1]%float w_ctrl_fault) = Returned tt
  /\ alive_of Comm (env (snd (step [1; 0; -1]%float w_ctrl_fault)))
     = Some Running
  /\ alive_of Ctrl (env (snd (step [1; 0; -1]%float w_ctrl_fault)))
     = Some Running.
Proof. repeat split; reflexivity. Qed.




(** C3 (the code at the failing input).  On an environment that was
    never connected, [get_obs()] raises the not-connected error and
    changes nothing.  [step(actions)] raises it too, but only after its
    put: the vector sits on the command channel afterwards, and a second
    [step] finds the channel full and blocks for ever instead of
    raising. *)
Theorem step_before_connect_enqueues (hostname : string)
        (cl : HardwareClient) (clk : nat -> float) (s : list batch)
        (actions actions' : ActionVector) :
  let w := fresh_world hostname cl clk s in
  get_obs w = (Raised (CloneEnvError comm_not_initialized None), w)
  /\ fst (step actions w) = Raised (CloneEnvError comm_not_initialized None)
  /\ _actions_queue (env (snd (step actions w))) = [actions]
  /\ sent (log (snd (step actions w))) = [actions]
  /\ fst (step actions' (snd (step actions w))) = Blocked.
Proof.
  intros w.
  assert (E : step actions w
              = (Raised (CloneEnvError comm_not_initialized None),
                 set_log [EvPut actions]
                   (set_env (set_actions_queue [actions] (env w))
                      (set_sched (tl s) w)))).
  { unfold step, queue_put, bind, yield, await. cbn.
    rewrite apply_batch_inert by reflexivity.
    rewrite wait_until_now by reflexivity. reflexivity. }
  split; [reflexivity|]. rewrite E. cbn [fst snd].
  repeat split.
  apply step_blocked_iff.
  unfold queue_put, bind, yield, await. cbn.
  rewrite apply_batch_inert by reflexivity.
  rewrite wait_until_inert by reflexivity. reflexivity.
Qed.



(** C5 (the code at the failing input).  [reset] without actions calls
    [loose_all()] with no argument, so the period it is given is
    ignored: it always de-actuates for [FULL_LOOSE_TIME].  Asked for two
    seconds on a clock advancing by a quarter of a second, it returns
    after one step, at the third clock reading, where [loose_all(2)]
    followed by [get_obs()] takes seven steps and nine readings. *)
Theorem reset_without_actions_ignores_period :
  (forall fuel period,
      reset fuel None period
      = (loose_all fuel FULL_LOOSE_TIME ;; get_obs ;; ret tt))
  /\ fst (reset 40 None 2 w_draining) = Returned tt
  /\ ticks (snd (reset 40 None 2 w_draining)) = 3
  /\ length (sent (log (snd (reset 40 None 2 w_draining)))) = 1
  /\ fst ((loose_all 40 2 ;; get_obs ;; ret tt) w_draining) = Returned tt
  /\ ticks (snd ((loose_all 40 2 ;; get_obs ;; ret tt) w_draining)) = 9
  /\ length (sent (log (snd ((loose_all 40 2 ;; get_obs ;; ret tt) w_draining))))
     = 7.
Proof. split; [reflexivity|]. repeat split; vm_compute; reflexivity. Qed.

(** C6 (as amended).  [keep_step(actions, period)] returns only at a
    clock reading whose elapsed time since the call's start is not below
    [period]; before that it has issued exactly one [step(actions)] per
    earlier reading whose elapsed time was below [period] - none at all
    when the first reading already is not below it. *)
Theorem keep_step_returns_after_period (fuel : nat) (actions : ActionVector)
        (period : float) (w w' : World) :
  keep_step fuel actions period w = (Returned tt, w') ->
  exists k,
    (forall i, i < k -> (elapsed w i <? period)%float = true)
    /\ (elapsed w k <? period)%float = false
    /\ sent (log w') = sent (log w) ++ repeat actions k
    /\ ticks w' = ticks w + 2 + k.
Proof. apply keep_step_returned. Qed.

Lemma keep_step_returns_after_period_witness :
  exists k,
    (forall i, i < k -> (elapsed w_draining i <? 1)%float = true)
    /\ (elapsed w_draining k <? 1)%float = false
    /\ sent (log (snd (keep_step 40 [1; 0; -1]%float 1 w_draining)))
       = sent (log w_draining) ++ repeat [1; 0; -1]%float k
    /\ ticks (snd (keep_step 40 [1; 0; -1]%float 1 w_draining))
       = ticks w_draining + 2 + k.
Proof.
  apply (keep_step_returns_after_period 40 [1; 0; -1]%float 1 w_draining).
  vm_compute. reflexivity.
Defined.

(** C6 as stated fails: with a period of zero [keep_step] returns
    without a single [step]. *)
Lemma keep_step_zero_period_no_step :
  fst (keep_step 40 [1; 0; -1]%float 0 w_draining) = Returned tt
  /\ sent (log (snd (keep_step 40 [1; 0; -1]%float 0 w_draining)))
     = sent (log w_draining)
  /\ _actions_queue (env (snd (keep_step 40 [1; 0; -1]%float 0 w_draining)))
     = [].
Proof. repeat split; vm_compute; reflexivity. Qed.

(** C7.  On an environment with muscle count [n], every vector that
    [loose_all(period)] puts on the command channel has length [n] and
    all its elements equal to -1. *)
Theorem loose_all_sends_minus_ones (fuel : nat) (period : float) (w : World)
        (n : nat) :
  no_actions (env w) = n ->
  exists k,
    sent (log (snd (loose_all fuel period w)))
    = sent (log w) ++ repeat (repeat (-1)%float n) k
    /\ forall v, In v (repeat (repeat (-1)%float n) k) ->
                 length v = n /\ Forall (fun x => x = (-1)%float) v.
Proof.
  intros Hn. rewrite loose_all_eq, Hn.
  destruct (keep_step_sends fuel (repeat (-1)%float n) period w) as [k Hk].
  exists k. split; [exact Hk|].
  intros v Hv. apply repeat_spec in Hv. subst v.
  split; [apply repeat_length|].
  apply Forall_forall. intros x Hx. now apply repeat_spec in Hx.
Qed.

Lemma loose_all_sends_minus_ones_witness :
  exists k,
    sent (log (snd (loose_all 40 1 w_draining)))
    = sent (log w_draining) ++ repeat (repeat (-1)%float 3) k
    /\ forall v, In v (repeat (repeat (-1)%float 3) k) ->
                 length v = 3 /\ Forall (fun x => x = (-1)%float) v.
Proof.
  apply (loose_all_sends_minus_ones 40 1 w_draining 3). reflexivity.
Defined.

(** C8 (as amended).  Every observation vector read from the shared
    buffer has the length [n] it was allocated with, the comm worker
    writing vectors of that length.  [step] does not look at the length
    of its argument: unless its put blocks, whatever vector it is given
    goes on the command channel as it is. *)
Theorem step_forwards_any_vector (w : World) (n : nat)
        (actions : ActionVector) :
  obs_sized n w ->
  (forall fuel cs obs,
      ~ In Connect cs ->
      fst (get_obs (snd (run_calls fuel cs w))) = Returned obs ->
      len obs = n)
  /\ ((fst (step actions w) = Blocked
       /\ sent (log (snd (step actions w))) = sent (log w))
      \/ (fst (step actions w) <> Blocked
          /\ sent (log (snd (step actions w))) = sent (log w) ++ [actions]))
  /\ (_actions_queue (env w) = [] -> fst (step actions w) <> Blocked).
Proof.
  intros H. split; [|split].
  - intros fuel cs obs Hcs E.
    apply (obs_sized_run_calls n fuel cs Hcs) in H.
    destruct (get_obs _) as [o w'] eqn:G. cbn in E. subst o.
    eapply get_obs_sized; eassumption.
  - apply step_sends.
  - intros Hq B. apply step_blocked_iff in B.
    rewrite (queue_put_empty actions w Hq) in B. discriminate.
Qed.

Lemma step_forwards_any_vector_witness :
  (fst (step [1]%float w_connected) = Blocked
   /\ sent (log (snd (step [1]%float w_connected))) = sent (log w_connected))
  \/ (fst (step [1]%float w_connected) <> Blocked
      /\ sent (log (snd (step [1]%float w_connected)))
         = sent (log w_connected) ++ [[1]%float]).
Proof.
  assert (H : obs_sized 3 w_connected).
  { split; [|constructor]. exists [0; 0; 0]%float. split; reflexivity. }
  exact (proj1 (proj2 (step_forwards_any_vector w_connected 3 [1]%float H))).
Defined.

(** C8 as stated fails: on an environment connected with three muscles,
    [step] takes a vector of length one and puts it on the command
    channel. *)
Lemma step_accepts_wrong_length :
  no_actions (env w_connected) = 3
  /\ fst (step [1]%float w_connected) = Returned tt
  /\ _actions_queue (env (snd (step [1]%float w_connected))) = [[1]%float]
  /\ sent (log (snd (step [1]%float w_connected))) = [[1]%float].
Proof. repeat split; reflexivity. Qed.

(** C9.  On a connected environment [force_close()] returns and leaves
    both workers terminated; called again, any number of times, it
    returns and changes nothing, terminating a terminated handle being a
    no-op; the same holds after the teardown that a fault triggers. *)
Theorem force_close_idempotent (w : World) (n : nat) :
  connected (env w) ->
  let w1 := snd (force_close w) in
  fst (force_close w) = Returned tt
  /\ terminated Comm (env w1) /\ terminated Ctrl (env w1)
  /\ mark Terminated Comm (env w1) = env w1
  /\ mark Terminated Ctrl (env w1) = env w1
  /\ fst (run_calls 0 (repeat ForceClose n) w1) = Returned tt
  /\ env (snd (run_calls 0 (repeat ForceClose n) w1)) = env w1
  /\ (forall err trace,
         comm_fault (err, trace) (env w) ->
         let w2 := snd (get_obs w) in
         fst (run_calls 0 (repeat ForceClose n) w2) = Returned tt
         /\ env (snd (run_calls 0 (repeat ForceClose n) w2)) = env w2).
Proof.
  intros Hc w1.
  destruct (force_close_connected w Hc) as (R & T1 & T2 & _). fold w1 in T1, T2.
  split; [exact R|]. split; [exact T1|]. split; [exact T2|].
  split; [now apply mark_terminated_noop|].
  split; [now apply mark_terminated_noop|].
  destruct (force_close_again n w1 T1 T2) as [R' E'].
  split; [exact R'|]. split; [exact E'|].
  intros err trace Hf w2.
  destruct (get_obs_fault err trace w Hc Hf) as (_ & T1' & T2' & _).
  now apply force_close_again.
Qed.

Lemma force_close_idempotent_witness :
  fst (force_close w_connected) = Returned tt
  /\ fst (run_calls 0 [ForceClose; ForceClose; ForceClose]
                    (snd (force_close w_connected))) = Returned tt
  /\ env (snd (run_calls 0 [ForceClose; ForceClose; ForceClose]
                         (snd (force_close w_connected))))
     = env (snd (force_close w_connected)).
Proof.
  assert (Hc : connected (env w_connected)) by (split; discriminate).
  destruct (force_close_idempotent w_connected 3 Hc)
    as (R & _ & _ & _ & _ & R' & E' & _).
  split; [exact R|]. split; [exact R' | exact E'].
Defined.

(** C10 (as amended).  If the comm worker's fault slot is set when
    [close()] is called on a connected environment, [close()] raises the
    wrapped fault after both workers have been terminated, and the
    stop-pressure-generation handshake is not performed.  The fault is
    raised by the first [step()] of the de-actuation inside [reset()],
    right after its put; it comes from the [get_obs()] of [reset()] only
    when the loop of [keep_step] makes no iteration.  When the command
    channel is full and is never drained, [close()] blocks in that first
    put instead. *)
Theorem close_with_comm_fault (fuel : nat) (w : World) (err trace : string) :
  connected (env w) ->
  comm_fault (err, trace) (env w) ->
  let r := close (S fuel) w in
  let all_loose := repeat (-1)%float (no_actions (env w)) in
  ((fst r = Blocked /\ log (snd r) = log w)
   \/ (fst r = Raised (CloneEnvError trace (Some err))
       /\ terminated Comm (env (snd r))
       /\ terminated Ctrl (env (snd r))
       /\ (((elapsed w 0 <? FULL_LOOSE_TIME)%float = true
            /\ log (snd r)
               = log w ++ [EvPut all_loose; EvTerminate Comm; EvTerminate Ctrl])
           \/ ((elapsed w 0 <? FULL_LOOSE_TIME)%float = false
               /\ log (snd r)
                  = log w ++ [EvTerminate Comm; EvTerminate Ctrl]))))
  /\ (~ In EvStopPressuregen (log w) -> ~ In EvStopPressuregen (log (snd r)))
  /\ (_actions_queue (env w) = [] ->
      fst r = Raised (CloneEnvError trace (Some err))).
Proof.
  intros Hc Hf r all_loose. subst all_loose.
  assert (Er : r = close (S fuel) w) by reflexivity. clearbody r.
  unfold close in Er.
  pose proof (reset_fault fuel FULL_LOOSE_TIME err trace w Hc Hf) as H.
  cbv zeta in H.
  destruct (reset (S fuel) None FULL_LOOSE_TIME w) as [o w'] eqn:E.
  cbn [fst snd] in H.
  destruct H as [(B & L & Hq)|(R & T1 & T2 & L)]; subst o.
  - rewrite (bind_blocked E) in Er. subst r. cbn [fst snd].
    split; [left; auto|]. split.
    + now rewrite L.
    + intros Hq'. contradiction.
  - rewrite (bind_raised E) in Er. subst r. cbn [fst snd].
    split; [right; auto|]. split; [|reflexivity].
    intros Hn Hin.
    destruct L as [[_ L]|[_ L]]; rewrite L in Hin;
      apply in_app_or in Hin; destruct Hin as [Hin|Hin]; auto;
      cbn in Hin; intuition discriminate.
Qed.

Lemma close_with_comm_fault_witness :
  fst (close 3 w_comm_fault)
  = Raised (CloneEnvError "Traceback" (Some "OSError"%string))
  /\ ~ In EvStopPressuregen (log (snd (close 3 w_comm_fault))).
Proof.
  assert (Hc : connected (env w_comm_fault)) by (split; discriminate).
  assert (Hf : comm_fault ("OSError"%string, "Traceback"%string)
                          (env w_comm_fault))
    by (eexists; split; reflexivity).
  destruct (close_with_comm_fault 2 w_comm_fault "OSError" "Traceback" Hc Hf)
    as (_ & N & R).
  split; [apply R; reflexivity|].
  apply N. cbn. intuition discriminate.
Defined.

(** C10 as stated fails on where the fault comes from: the de-actuation
    inside [reset()] already raises it, from its first [step()] and with
    the vector of -1 put on the channel, so that the [get_obs()] of
    [reset()] is never reached. *)
Lemma close_fault_raised_by_step :
  fst (close 3 w_comm_fault)
  = Raised (CloneEnvError "Traceback" (Some "OSError"%string))
  /\ fst (loose_all 3 FULL_LOOSE_TIME w_comm_fault)
     = Raised (CloneEnvError "Traceback" (Some "OSError"%string))
  /\ fst (step [-1; -1; -1]%float
               (set_ticks 2 w_comm_fault))
     = Raised (CloneEnvError "Traceback" (Some "OSError"%string))
  /\ log (snd (close 3 w_comm_fault))
     = log w_comm_fault
       ++ [EvPut [-1; -1; -1]%float; EvTerminate Comm; EvTerminate Ctrl].
Proof. repeat split; reflexivity. Qed.

(* ================================================================= *)
(** ** Further properties of the methods *)

(** *** Facts about the handles that every method but [connect] keeps *)

Section Handles.
Variable P : CloneEnv -> Prop.
Hypothesis P_stable : stable_under any_event P.
Hypothesis P_mark : forall st r e, P e -> P (mark st r e).
Hypothesis P_queue : forall q e, P e -> P (set_actions_queue q e).

Lemma handles_yield : preserves (fun w => P (env w)) yield.
Proof. intros w H. cbn. now apply apply_batch_always. Qed.

Lemma handles_await ready : preserves (fun w => P (env w)) (await ready).
Proof. intros w H. rewrite await_world. cbn. now apply wait_until_always. Qed.

Lemma handles_mark st r : preserves (fun w => P (env w)) (modify_env (mark st r)).
Proof. intros w H. cbn. now apply P_mark. Qed.

Lemma handles_put a : preserves (fun w => P (env w)) (queue_put a).
Proof. intros w H. now apply queue_put_handles. Qed.

Lemma handles_get_obs : preserves (fun w => P (env w)) get_obs.
Proof.
  apply get_obs_preserves with (okev := fun _ => True);
    auto using handles_yield, handles_await, handles_mark;
    repeat intro; assumption.
Qed.

Lemma handles_step a : preserves (fun w => P (env w)) (step a).
Proof.
  apply step_preserves with (okput := fun _ => True) (okev := fun _ => True);
    auto using handles_yield, handles_await, handles_mark, handles_put;
    repeat intro; assumption.
Qed.

Lemma handles_surface_fault {A} : preserves (fun w => P (env w)) (@surface_fault A).
Proof.
  apply surface_fault_preserves with (okev := fun _ => True);
    auto using handles_yield, handles_mark;
    repeat intro; assumption.
Qed.

Lemma handles_run_call fuel c :
  c <> Connect -> preserves (fun w => P (env w)) (run_call fuel c).
Proof.
  apply run_call_preserves with (okput := fun _ => True) (okev := fun _ => True);
    auto using handles_yield, handles_await, handles_mark, handles_put;
    repeat intro; assumption.
Qed.


Lemma handles_reset fuel a p : preserves (fun w => P (env w)) (reset fuel a p).
Proof.
  apply reset_preserves with (okput := fun _ => True) (okev := fun _ => True);
    auto using handles_yield, handles_await, handles_mark, handles_put;
    repeat intro; assumption.
Qed.
End Handles.

Lemma set_queue_connected q e : connected e -> connected (set_actions_queue q e).
Proof. intros H; exact H. Qed.


Lemma mark_comm_fault x st r e : comm_fault x e -> comm_fault x (mark st r e).
Proof.
  unfold comm_fault, mark. intros (h & Hh & Hx).
  destruct r; cbn; rewrite ?Hh; cbn; eauto.
  destruct (_ctrl_worker e); cbn; eauto.
Qed.

Lemma stable_unconnected : stable_under any_event unconnected.
Proof.
  unfold unconnected. event_cases; intros _ [H1 H2]; auto;
    rewrite ?H1, ?H2 in *; discriminate.
Qed.

Lemma mark_unconnected st r e : unconnected e -> mark st r e = e.
Proof. unfold unconnected, mark. intros [H1 H2]. destruct r; cbn; now rewrite ?H1, ?H2. Qed.

(** *** What [get_obs] and [step] can raise *)

Lemma exception_of_eq r w :
  exception_of r w
  = (Returned (match handle r (env (yielded w)) with
               | Some h => exception h
               | None => None
               end), yielded w).
Proof. reflexivity. Qed.

Lemma snapshot_outcome w :
  ((exists obs, fst (snapshot_under_lock w) = Returned obs)
   \/ fst (snapshot_under_lock w) = Blocked)
  /\ log (snd (snapshot_under_lock w)) = log w.
Proof.
  unfold snapshot_under_lock, bind, yield, await, get_env, ret. cbn.
  destruct (wait_until _ _ _) as [[[|] e] s]; cbn; eauto.
Qed.

Lemma check_fault_cases {A} (k : M A) w :
  connected (env w) ->
  let m := (c <- comm_worker ;;
            x <- exception_of c ;;
            match x with Some _ => surface_fault | None => k end) in
  (exists err trace,
      fst (m w) = Raised (CloneEnvError trace (Some err))
      /\ comm_fault (err, trace) (env (snd (m w)))
      /\ terminated Comm (env (snd (m w)))
      /\ terminated Ctrl (env (snd (m w)))
      /\ log (snd (m w)) = log w ++ [EvTerminate Comm; EvTerminate Ctrl])
  \/ m w = k (yielded w).
Proof.
  intros Hc m. subst m.
  rewrite (bind_returned (comm_worker_connected w Hc)).
  rewrite (bind_returned (exception_of_eq Comm w)).
  pose proof (yielded_always _ w stable_connected Hc) as Hc'.
  destruct (handle Comm (env (yielded w))) as [h|] eqn:Hh; [|now right].
  destruct (exception h) as [[err trace]|] eqn:Hx; [left | now right].
  assert (Hf : comm_fault (err, trace) (env (yielded w)))
    by (exists h; auto).
  destruct (@surface_fault_spec A err trace (yielded w) Hc' Hf)
    as (R & T1 & T2 & L).
  exists err, trace. repeat split; auto.
  apply (handles_surface_fault (comm_fault (err, trace))
           (stable_comm_fault _) (mark_comm_fault _) (yielded w) Hf).
Qed.

(** X1.  On a connected environment the only exception that [get_obs()]
    and [step()] raise is the wrapped fault of the comm worker, which is
    then still in its slot, with both workers terminated: the second
    read of the slot never finds it empty, and the accessors never
    fail.  A call that returns, or that waits, has terminated nothing:
    [get_obs()] leaves no trace at all, [step()] only its put. *)
Theorem only_the_comm_fault_is_raised (w : World) (actions : ActionVector) :
  connected (env w) ->
  match fst (get_obs w) with
  | Returned _ | Blocked => log (snd (get_obs w)) = log w
  | Raised x =>
      exists err trace,
        x = CloneEnvError trace (Some err)
        /\ comm_fault (err, trace) (env (snd (get_obs w)))
        /\ terminated Comm (env (snd (get_obs w)))
        /\ terminated Ctrl (env (snd (get_obs w)))
  | OutOfFuel => False
  end
  /\ match fst (step actions w) with
     | Returned _ => log (snd (step actions w)) = log w ++ [EvPut actions]
     | Blocked => log (snd (step actions w)) = log w
     | Raised x =>
         exists err trace,
           x = CloneEnvError trace (Some err)
           /\ comm_fault (err, trace) (env (snd (step actions w)))
           /\ terminated Comm (env (snd (step actions w)))
           /\ terminated Ctrl (env (snd (step actions w)))
           /\ log (snd (step actions w))
              = log w ++ [EvPut actions; EvTerminate Comm; EvTerminate Ctrl]
     | OutOfFuel => False
     end.
Proof.
  intros Hc. split.
  - unfold get_obs.
    destruct (check_fault_cases snapshot_under_lock w Hc)
      as [(err & trace & R & F & T1 & T2 & _)|E].
    + rewrite R. eauto 6.
    + rewrite E. destruct (snapshot_outcome (yielded w)) as [[[obs R]|R] L];
        rewrite R; exact L.
  - assert (Hc' : connected (env (snd (queue_put actions w)))).
    { apply queue_put_handles; auto using stable_connected. }
    unfold step.
    destruct (queue_put_outcome actions w) as [[R L]|[R L]];
      destruct (queue_put actions w) as [o w'] eqn:E; cbn in R, L, Hc'; subst o.
    + rewrite (bind_returned E).
      destruct (check_fault_cases (ret tt) w' Hc')
        as [(err & trace & R & F & T1 & T2 & L')|E'].
      * rewrite R. exists err, trace. repeat split; auto.
        rewrite L', L. now rewrite <- app_assoc.
      * rewrite E'. cbn. exact L.
    + rewrite (bind_blocked E). cbn. exact L.
Qed.

Lemma only_the_comm_fault_is_raised_witness :
  log (snd (get_obs w_draining)) = log w_draining
  /\ log (snd (step [1; 0; -1]%float w_draining))
     = log w_draining ++ [EvPut [1; 0; -1]%float].
Proof.
  assert (Hc : connected (env w_draining)) by (split; discriminate).
  exact (only_the_comm_fault_is_raised w_draining [1; 0; -1]%float Hc).
Defined.

(** *** Before [connect] *)

Lemma get_obs_unconnected w :
  unconnected (env w) ->
  get_obs w = (Raised (CloneEnvError comm_not_initialized None), w).
Proof.
  intros [H _]. unfold get_obs, comm_worker, bind, get_env. now rewrite H.
Qed.

Lemma force_close_unconnected w :
  unconnected (env w) ->
  force_close w = (Raised (CloneEnvError comm_not_initialized None), w).
Proof.
  intros [H _]. unfold force_close, comm_worker, bind, get_env. now rewrite H.
Qed.

Lemma queue_put_unconnected a w :
  unconnected (env w) -> unconnected (env (snd (queue_put a w))).
Proof.
  intros H. apply queue_put_handles; auto using stable_unconnected.
Qed.

Lemma step_unconnected a w :
  unconnected (env w) ->
  step a w = (Raised (CloneEnvError comm_not_initialized None),
              snd (queue_put a w))
  \/ step a w = (Blocked, snd (queue_put a w)).
Proof.
  intros H. apply (queue_put_unconnected a) in H. unfold step.
  destruct (queue_put_outcome a w) as [[R _]|[R _]];
    destruct (queue_put a w) as [o w'] eqn:E; cbn in R, H; subst o.
  - left. rewrite (bind_returned E).
    destruct H as [H _]. unfold comm_worker, bind, get_env. now rewrite H.
  - right. now rewrite (bind_blocked E).
Qed.

Lemma keep_step_unconnected fuel a p w :
  unconnected (env w) ->
  (refused (fst (keep_step (S fuel) a p w))
   /\ unconnected (env (snd (keep_step (S fuel) a p w))))
  \/ keep_step (S fuel) a p w = (Returned tt, set_ticks (S (S (ticks w))) w).
Proof.
  intros H. rewrite keep_step_first. cbv zeta.
  destruct (elapsed w 0 <? p)%float; [left | now right].
  set (w2 := set_ticks (S (S (ticks w))) w).
  assert (H2 : unconnected (env w2)) by exact H.
  pose proof (queue_put_unconnected a w2 H2) as H3.
  destruct (step_unconnected a w2 H2) as [E|E].
  - rewrite (bind_raised E). split; [now left | exact H3].
  - rewrite (bind_blocked E). split; [now right | exact H3].
Qed.

Lemma loose_all_bind {B} fuel p (k : unit -> M B) w :
  bind (loose_all fuel p) k w
  = bind (keep_step fuel (repeat (-1)%float (no_actions (env w))) p) k w.
Proof. unfold bind. now rewrite loose_all_eq. Qed.

Lemma reset_unconnected fuel acts p w :
  unconnected (env w) ->
  refused (fst (reset (S fuel) acts p w))
  /\ unconnected (env (snd (reset (S fuel) acts p w))).
Proof.
  intros H.
  assert (K : forall a q,
             let m := keep_step (S fuel) a q in
             refused (fst ((m ;; get_obs ;; ret tt) w))
             /\ unconnected (env (snd ((m ;; get_obs ;; ret tt) w)))).
  { intros a q m. subst m.
    destruct (keep_step_unconnected fuel a q w H) as [[R U]|E].
    - destruct (keep_step (S fuel) a q w) as [o w'] eqn:E.
      cbn in R, U. destruct R as [-> | ->].
      + now rewrite (bind_raised E); split; [left|].
      + now rewrite (bind_blocked E); split; [right|].
    - rewrite (bind_returned E).
      assert (H2 : unconnected (env (set_ticks (S (S (ticks w))) w)))
        by exact H.
      rewrite (bind_raised (get_obs_unconnected _ H2)).
      split; [now left | exact H2]. }
  unfold reset. destruct acts as [a|].
  - apply K.
  - rewrite loose_all_bind. apply (K _ FULL_LOOSE_TIME).
Qed.

Lemma never_stopped_put a : preserves never_stopped (queue_put a).
Proof.
  intros w H. unfold never_stopped in *.
  destruct (queue_put_outcome a w) as [[_ L]|[_ L]]; rewrite L; auto.
  intros Hin. apply in_app_or in Hin. destruct Hin as [Hin|[Hin|[]]]; auto.
  discriminate.
Qed.

Lemma never_stopped_reset fuel acts p : preserves never_stopped (reset fuel acts p).
Proof.
  assert (Ha : forall ready, preserves never_stopped (await ready)).
  { intros ready w H. rewrite await_world. exact H. }
  assert (He : forall ev, ev <> EvStopPressuregen ->
                          preserves never_stopped (emit ev)).
  { intros ev Hev w H Hin. apply in_app_or in Hin.
    destruct Hin as [Hin|[Hin|[]]]; [now apply H | now apply Hev]. }
  apply reset_preserves
    with (okput := fun _ => True) (okev := fun ev => ev <> EvStopPressuregen);
    auto using never_stopped_put;
    try (intros; cbv beta; discriminate);
    try (intros w H; exact H); intros st r w H; exact H.
Qed.

(** X2.  On an environment for which no worker was ever created,
    [get_obs()] and [force_close()] raise the not-initialized error and
    change nothing; [step], [reset] (with or without actions) and
    [close] never return: each raises that error or waits on a full
    command channel; [close] does not get to the stop handshake; and no
    method but [connect] creates a worker. *)
Theorem nothing_works_before_connect (w : World) :
  unconnected (env w) ->
  get_obs w = (Raised (CloneEnvError comm_not_initialized None), w)
  /\ force_close w = (Raised (CloneEnvError comm_not_initialized None), w)
  /\ (forall actions, refused (fst (step actions w)))
  /\ (forall fuel actions period,
         refused (fst (reset (S fuel) actions period w)))
  /\ (forall fuel,
         refused (fst (close (S fuel) w))
         /\ (never_stopped w -> never_stopped (snd (close (S fuel) w))))
  /\ (forall fuel c,
         c <> Connect -> unconnected (env (snd (run_call fuel c w)))).
Proof.
  intros H.
  split; [now apply get_obs_unconnected|].
  split; [now apply force_close_unconnected|].
  split; [|split; [|split]].
  - intros a. destruct (step_unconnected a w H) as [E|E]; rewrite E;
      [now left | now right].
  - intros fuel acts p. now apply reset_unconnected.
  - intros fuel.
    destruct (reset_unconnected fuel None FULL_LOOSE_TIME w H) as [R _].
    pose proof (never_stopped_reset (S fuel) None FULL_LOOSE_TIME w) as N.
    unfold close.
    destruct (reset (S fuel) None FULL_LOOSE_TIME w) as [o w'] eqn:E.
    cbn in R, N. destruct R as [-> | ->].
    + rewrite (bind_raised E). split; [now left | exact N].
    + rewrite (bind_blocked E). split; [now right | exact N].
  - intros fuel c Hc.
    apply (handles_run_call unconnected stable_unconnected); auto.
    intros st r e He. now rewrite mark_unconnected.
Qed.

Lemma nothing_works_before_connect_witness :
  refused (fst (close 3 w_fresh))
  /\ never_stopped (snd (close 3 w_fresh))
  /\ refused (fst (reset 3 (Some [1; 0; -1]%float) 1 w_fresh)).
Proof.
  assert (H : unconnected (env w_fresh)) by (split; reflexivity).
  destruct (nothing_works_before_connect w_fresh H)
    as (_ & _ & _ & R & C & _).
  destruct (C 2) as [C1 C2].
  split; [exact C1|]. split; [|exact (R 2 _ _)].
  apply C2. intros [].
Defined.

(** *** [connect]: failed handshakes, and connecting again *)

Lemma connect_trace w :
  connection (client w) = None ->
  start_pressuregen (client w) = None ->
  wait_for_desired_pressure (client w) = None ->
  log (snd (connect w))
  = log w ++ [EvStartPressuregen; EvWaitForDesiredPressure;
              EvStart Comm; EvStart Ctrl].
Proof.
  intros Hc Hs Hw.
  unfold connect, _start_client, client_connection, run_until_complete, bind.
  cbn. rewrite Hc. cbn. rewrite Hs. cbn. rewrite Hw. cbn.
  now rewrite <- !app_assoc.
Qed.

(** X3.  A handshake that fails makes [connect()] raise the client's
    error without creating a worker or a buffer.  If opening the
    connection fails nothing has changed.  If starting the pressure
    generation fails, [no_actions] has already been overwritten with the
    client's muscle count; if waiting for the pressure fails, the
    pressure generation has been started as well and is left running.
    On an environment that was connected, [no_actions] may then differ
    from the length of the buffers, and [loose_all] sends vectors of the
    new length. *)
Theorem connect_failure (w : World) (msg : string) :
  let m := number_of_muscles (client w) in
  (connection (client w) = Some msg ->
   connect w = (Raised (ClientError msg), w))
  /\ (connection (client w) = None ->
      start_pressuregen (client w) = Some msg ->
      connect w = (Raised (ClientError msg), set_env (set_no_actions m (env w)) w))
  /\ (connection (client w) = None ->
      start_pressuregen (client w) = None ->
      wait_for_desired_pressure (client w) = Some msg ->
      connect w = (Raised (ClientError msg),
                   set_log (log w ++ [EvStartPressuregen])
                           (set_env (set_no_actions m (env w)) w)))
  /\ (connection (client w) = None ->
      start_pressuregen (client w) = Some msg
      \/ (start_pressuregen (client w) = None
          /\ wait_for_desired_pressure (client w) = Some msg) ->
      let w' := snd (connect w) in
      _current_obs (env w') = _current_obs (env w)
      /\ _comm_worker (env w') = _comm_worker (env w)
      /\ _ctrl_worker (env w') = _ctrl_worker (env w)
      /\ no_actions (env w') = m
      /\ forall fuel period,
          exists k,
            sent (log (snd (loose_all fuel period w')))
            = sent (log w') ++ repeat (repeat (-1)%float m) k).
Proof.
  intros m.
  assert (A : connection (client w) = Some msg ->
              connect w = (Raised (ClientError msg), w)).
  { intros Hc.
    unfold connect, _start_client, client_connection, bind. now rewrite Hc. }
  assert (B : connection (client w) = None ->
              start_pressuregen (client w) = Some msg ->
              connect w = (Raised (ClientError msg),
                           set_env (set_no_actions m (env w)) w)).
  { intros Hc Hs.
    unfold connect, _start_client, client_connection, run_until_complete, bind.
    cbn. rewrite Hc. cbn. now rewrite Hs. }
  assert (C : connection (client w) = None ->
              start_pressuregen (client w) = None ->
              wait_for_desired_pressure (client w) = Some msg ->
              connect w = (Raised (ClientError msg),
                           set_log (log w ++ [EvStartPressuregen])
                                   (set_env (set_no_actions m (env w)) w))).
  { intros Hc Hs Hw.
    unfold connect, _start_client, client_connection, run_until_complete, bind.
    cbn. rewrite Hc. cbn. rewrite Hs. cbn. now rewrite Hw. }
  split; [exact A|]. split; [exact B|]. split; [exact C|].
  intros Hc Hf w'.
  assert (E : env w' = set_no_actions m (env w)).
  { subst w'. destruct Hf as [Hs|[Hs Hw]];
      [rewrite (B Hc Hs) | rewrite (C Hc Hs Hw)]; reflexivity. }
  rewrite E. repeat split.
  intros fuel period.
  destruct (keep_step_sends fuel (repeat (-1)%float m) period w') as [k Hk].
  exists k. rewrite loose_all_eq, E. exact Hk.
Qed.

Lemma connect_failure_witness :
  fst (connect w_failing_client) = Raised (ClientError "no pressure")
  /\ no_actions (env (snd (connect w_failing_client))) = 5
  /\ _current_obs (env (snd (connect w_failing_client))) = Some [0; 0; 0]%float.
Proof.
  destruct (connect_failure w_failing_client "no pressure") as (_ & B & _ & D).
  rewrite (B eq_refl eq_refl).
  destruct (D eq_refl (or_introl eq_refl)) as (O & _ & _ & N & _).
  repeat split.
Defined.

(** X4.  Whatever the state of the environment, a [connect()] whose
    handshake succeeds installs two fresh running workers with empty
    fault slots and zeroed buffers of the client's muscle count.  It
    terminates nothing - workers it replaces are left as they were -
    and it neither empties the command channel nor touches the lock. *)
Theorem connect_replaces_handles (w : World) :
  connection (client w) = None ->
  start_pressuregen (client w) = None ->
  wait_for_desired_pressure (client w) = None ->
  let n := number_of_muscles (client w) in
  let w1 := snd (connect w) in
  fst (connect w) = Returned tt
  /\ no_actions (env w1) = n
  /\ _current_obs (env w1) = Some (repeat 0%float n)
  /\ _current_actions (env w1) = Some (repeat 0%float n)
  /\ _comm_worker (env w1) = Some (mkWorker Running None)
  /\ _ctrl_worker (env w1) = Some (mkWorker Running None)
  /\ _actions_queue (env w1) = _actions_queue (env w)
  /\ _obs_lock (env w1) = _obs_lock (env w)
  /\ log w1 = log w ++ [EvStartPressuregen; EvWaitForDesiredPressure;
                        EvStart Comm; EvStart Ctrl]
  /\ (forall x, ~ comm_fault x (env w1)).
Proof.
  intros Hc Hs Hw n w1.
  destruct (connect_success w Hc Hs Hw)
    as (R & Hn & Ho & Ha & Hcw & Htw & Hl & Hq & _).
  fold w1 in Hn, Ho, Ha, Hcw, Htw, Hl, Hq. fold n in Hn, Ho, Ha.
  repeat (split; [assumption|]).
  split; [now apply connect_trace|].
  intros x (h & Hh & Hx). rewrite Hcw in Hh. injection Hh as <-.
  discriminate.
Qed.

Lemma connect_replaces_handles_witness :
  _comm_worker (env w_torn_down)
  = Some (mkWorker Terminated (Some ("OSError"%string, "Traceback"%string)))
  /\ _comm_worker (env (snd (connect w_torn_down)))
     = Some (mkWorker Running None)
  /\ _actions_queue (env (snd (connect w_torn_down))) = [[1; 0; -1]%float].
Proof.
  destruct (connect_replaces_handles w_torn_down eq_refl eq_refl eq_refl)
    as (_ & _ & _ & _ & C & _ & Q & _).
  split; [reflexivity|]. split; [exact C|]. rewrite Q. reflexivity.
Defined.

(** *** [reset] with actions, and the two ends of [close] *)

Lemma get_obs_returned_frame w obs w' :
  get_obs w = (Returned obs, w') ->
  sent (log w') = sent (log w) /\ ticks w' = ticks w /\ client w' = client w.
Proof.
  intros E.
  assert (P1 : preserves (on_sent (eq (sent (log w)))) get_obs).
  { apply get_obs_preserves with (okev := not_a_put);
      auto using on_sent_yield, on_sent_await, on_sent_mark, on_sent_emit;
      intros; reflexivity. }
  assert (P2 : preserves (fun w0 => ticks w0 = ticks w /\ client w0 = client w)
                         get_obs).
  { apply get_obs_preserves with (okev := fun _ => True); auto;
      try (intros w0 H; exact H); try (intros ? ? w0 H; exact H).
    intros ready w0 H. rewrite await_world. exact H. }
  specialize (P1 w eq_refl). specialize (P2 w (conj eq_refl eq_refl)).
  rewrite E in P1, P2. cbn in P1, P2. unfold on_sent in P1.
  destruct P2. auto.
Qed.

(** X6.  [reset(actions, period)] with actions given does honour its
    period: when it returns, the clock reading at which its loop stopped
    had an elapsed time not below [period], one [step(actions)] was
    issued for each earlier reading, nothing else was sent, and the
    final [get_obs()] read the clock no further. *)
Theorem reset_with_actions_honours_period (fuel : nat)
        (actions : ActionVector) (period : float) (w w' : World) :
  reset fuel (Some actions) period w = (Returned tt, w') ->
  exists k,
    (forall i, i < k -> (elapsed w i <? period)%float = true)
    /\ (elapsed w k <? period)%float = false
    /\ sent (log w') = sent (log w) ++ repeat actions k
    /\ ticks w' = ticks w + 2 + k.
Proof.
  unfold reset. intros H.
  apply bind_inv_returned in H. destruct H as ([] & w1 & E1 & H).
  apply bind_inv_returned in H. destruct H as (obs & w2 & E2 & H).
  injection H as <-.
  apply keep_step_returned in E1. destruct E1 as (k & Hlt & Hge & Hs & Ht).
  apply get_obs_returned_frame in E2. destruct E2 as (Hs' & Ht' & _).
  exists k. repeat split; auto; congruence.
Qed.

Lemma reset_with_actions_honours_period_witness :
  exists k,
    (forall i, i < k -> (elapsed w_draining i <? 2)%float = true)
    /\ (elapsed w_draining k <? 2)%float = false
    /\ sent (log (snd (reset 40 (Some [1; 0; -1]%float) 2 w_draining)))
       = sent (log w_draining) ++ repeat [1; 0; -1]%float k
    /\ ticks (snd (reset 40 (Some [1; 0; -1]%float) 2 w_draining))
       = ticks w_draining + 2 + k.
Proof.
  apply (reset_with_actions_honours_period 40 [1; 0; -1]%float 2 w_draining).
  vm_compute. reflexivity.
Defined.

Lemma reset_keeps_client fuel acts p w :
  client (snd (reset fuel acts p w)) = client w.
Proof.
  assert (P : preserves (fun w0 => client w0 = client w) (reset fuel acts p)).
  { apply reset_preserves
      with (okput := fun _ => True) (okev := fun _ => True); auto;
      try (intros w0 H; exact H); try (intros ? ? w0 H; exact H).
    - intros ready w0 H. rewrite await_world. exact H.
    - intros a _. unfold queue_put.
      repeat (apply preserves_bind; [|intros ?]);
        try (intros w0 H; exact H).
      intros w0 H. rewrite await_world. exact H. }
  now apply P.
Qed.

(** X7.  When the [reset()] inside [close()] returns, on an environment
    that was connected, [close()] makes the stop handshake and then
    terminates both workers, in that order.  If the handshake fails -
    the connection cannot be opened, or stopping the pressure generation
    raises - [close()] raises the client's error and stops there:
    [force_close()] is not reached and the workers are left as [reset]
    left them. *)
Theorem close_after_reset (fuel : nat) (w w1 : World) :
  connected (env w) ->
  reset fuel None FULL_LOOSE_TIME w = (Returned tt, w1) ->
  (connection (client w) = None -> stop_pressuregen (client w) = None ->
   fst (close fuel w) = Returned tt
   /\ terminated Comm (env (snd (close fuel w)))
   /\ terminated Ctrl (env (snd (close fuel w)))
   /\ log (snd (close fuel w))
      = log w1 ++ [EvStopPressuregen; EvTerminate Comm; EvTerminate Ctrl])
  /\ (forall msg,
         connection (client w) = Some msg
         \/ (connection (client w) = None
             /\ stop_pressuregen (client w) = Some msg) ->
         close fuel w = (Raised (ClientError msg), w1)).
Proof.
  intros Hc E.
  assert (Hc1 : connected (env w1)).
  { replace w1 with (snd (reset fuel None FULL_LOOSE_TIME w)) by now rewrite E.
    apply (handles_reset connected stable_connected mark_connected
                         set_queue_connected); exact Hc. }
  assert (Hcl : client w1 = client w).
  { replace w1 with (snd (reset fuel None FULL_LOOSE_TIME w)) by now rewrite E.
    apply reset_keeps_client. }
  unfold close. rewrite (bind_returned E). split.
  - intros Ho Hs.
    set (w2 := set_log (log w1 ++ [EvStopPressuregen]) w1).
    assert (K : (cl <- client_connection;;
                 run_until_complete (stop_pressuregen cl) EvStopPressuregen;;
                 force_close) w1 = force_close w2).
    { unfold client_connection, run_until_complete, bind at 1 2.
      rewrite Hcl, Ho, Hs. reflexivity. }
    rewrite K.
    destruct (force_close_connected w2 Hc1) as (R & T1 & T2 & L).
    repeat split; auto. rewrite L. cbn. now rewrite <- app_assoc.
  - intros msg [Ho|[Ho Hs]];
      unfold client_connection, run_until_complete, bind at 1 2;
      rewrite Hcl, Ho; [reflexivity|]. now rewrite Hs.
Qed.

Lemma close_after_reset_witness :
  fst (close 40 w_draining) = Returned tt
  /\ terminated Comm (env (snd (close 40 w_draining)))
  /\ terminated Ctrl (env (snd (close 40 w_draining))).
Proof.
  assert (Hc : connected (env w_draining)) by (split; discriminate).
  destruct (close_after_reset 40 w_draining
              (snd (reset 40 None FULL_LOOSE_TIME w_draining)) Hc)
    as [H _]; [vm_compute; reflexivity|].
  destruct (H eq_refl eq_refl) as (R & T1 & T2 & _). auto.
Defined.

(** *** After the teardown *)



(** With both handles terminated, no event of the schedule changes the
    shared state any more. *)
Lemma terminated_handles_inert (w : World) (actions : ActionVector) :
  terminated Comm (env w) ->
  terminated Ctrl (env w) ->
  (length (_actions_queue (env w)) = maxsize ->
   fst (step actions w) = Blocked)
  /\ ((exists h, _comm_worker (env w) = Some h /\ exception h = None) ->
      (_obs_lock (env w) = true -> fst (get_obs w) = Blocked)
      /\ (_obs_lock (env w) = false ->
          forall l, _current_obs (env w) = Some l ->
                    fst (get_obs w) = Returned (array l)
                    /\ env (snd (get_obs w)) = env w)
      /\ (_actions_queue (env w) = [] ->
          fst (step actions w) = Returned tt
          /\ env (snd (step actions w))
             = set_actions_queue [actions] (env w))).
Proof.
  intros T1 T2.
  pose proof (terminated_inactive _ _ T1) as A1.
  pose proof (terminated_inactive _ _ T2) as A2. cbn in A1, A2.
  split.
  - intros Hq. apply step_blocked_iff.
    unfold queue_put, bind, yield, await. cbn.
    rewrite apply_batch_inert by assumption.
    rewrite wait_until_inert; auto.
    now rewrite Hq.
  - intros (h & Hh & Hx). split; [|split].
    + intros Hl.
      unfold get_obs, comm_worker, exception_of, snapshot_under_lock, bind,
        get_env, yield, await, ret. cbn.
      rewrite Hh. cbn. rewrite apply_batch_inert by assumption.
      rewrite Hh, Hx. cbn. rewrite apply_batch_inert by assumption.
      rewrite wait_until_inert; auto. now rewrite Hl.
    + intros Hl l Ho.
      unfold get_obs, comm_worker, exception_of, snapshot_under_lock, bind,
        get_env, yield, await, ret. cbn.
      rewrite Hh. cbn. rewrite apply_batch_inert by assumption.
      rewrite Hh, Hx. cbn. rewrite apply_batch_inert by assumption.
      rewrite wait_until_now by now rewrite Hl.
      cbn. rewrite Ho. auto.
    + intros Hq.
      unfold step, queue_put, comm_worker, exception_of, bind, get_env,
        yield, await, ret, modify_env, emit. cbn.
      rewrite apply_batch_inert by assumption.
      rewrite wait_until_now by now rewrite Hq.
      cbn. rewrite Hh. cbn.
      rewrite apply_batch_inert by (cbn; assumption).
      cbn. rewrite Hh, Hx. cbn. rewrite Hq. auto.
Qed.

(** X9.  Terminated handles are not refused.  On an environment that
    was connected at most once, so that no replaced worker is left
    running: once both workers are terminated, and as long as the comm
    worker left no fault behind, [get_obs()] still returns, whatever the
    schedule, the buffer as the comm worker left it - or waits for ever
    if that worker was killed while it held the lock.  [step()] puts one
    more vector on an empty channel and returns; on a full channel it
    blocks, nobody being left to receive. *)
Theorem after_teardown (hostname : string) (cl : HardwareClient)
        (clk : nat -> float) (s : list batch) (fuel : nat) (cs : list call)
        (actions : ActionVector) :
  length (filter is_connect cs) <= 1 ->
  let w := snd (run_calls fuel cs (fresh_world hostname cl clk s)) in
  terminated Comm (env w) ->
  terminated Ctrl (env w) ->
  (length (_actions_queue (env w)) = maxsize ->
   fst (step actions w) = Blocked)
  /\ ((exists h, _comm_worker (env w) = Some h /\ exception h = None) ->
      (_obs_lock (env w) = true -> fst (get_obs w) = Blocked)
      /\ (_obs_lock (env w) = false ->
          forall l, _current_obs (env w) = Some l ->
                    fst (get_obs w) = Returned (array l)
                    /\ env (snd (get_obs w)) = env w)
      /\ (_actions_queue (env w) = [] ->
          fst (step actions w) = Returned tt
          /\ env (snd (step actions w))
             = set_actions_queue [actions] (env w))).
Proof. intros _ w. apply terminated_handles_inert. Qed.

Lemma after_teardown_witness :
  fst (get_obs (snd (run_calls 0 [Connect; ForceClose] w_fresh)))
  = Returned (array [0; 0; 0]%float)
  /\ fst (step [1; 0; -1]%float (snd (run_calls 0 [Connect; ForceClose] w_fresh)))
     = Returned tt
  /\ fst (step [0; 0; 1]%float
               (snd (run_calls 0 [Connect; ForceClose; Step [1; 0; -1]%float]
                               w_fresh)))
     = Blocked.
Proof.
  assert (N1 : length (filter is_connect [Connect; ForceClose]) <= 1)
    by (cbn; lia).
  assert (N2 : length (filter is_connect
                              [Connect; ForceClose; Step [1; 0; -1]%float]) <= 1)
    by (cbn; lia).
  assert (T1 : terminated Comm
                 (env (snd (run_calls 0 [Connect; ForceClose] w_fresh))))
    by (eexists; split; reflexivity).
  assert (T2 : terminated Ctrl
                 (env (snd (run_calls 0 [Connect; ForceClose] w_fresh))))
    by (eexists; split; reflexivity).
  assert (T1' : terminated Comm
                  (env (snd (run_calls 0 [Connect; ForceClose;
                                          Step [1; 0; -1]%float] w_fresh))))
    by (eexists; split; reflexivity).
  assert (T2' : terminated Ctrl
                  (env (snd (run_calls 0 [Connect; ForceClose;
                                          Step [1; 0; -1]%float] w_fresh))))
    by (eexists; split; reflexivity).
  pose proof (after_teardown "clonepiext" client3 (linear_clock 0.25) [] 0
                [Connect; ForceClose] [1; 0; -1]%float N1 T1 T2) as H.
  pose proof (after_teardown "clonepiext" client3 (linear_clock 0.25) [] 0
                [Connect; ForceClose; Step [1; 0; -1]%float] [0; 0; 1]%float
                N2 T1' T2') as H'.
  destruct H as (_ & H). destruct H' as (B & _).
  destruct H as (_ & G & S); [eexists; split; reflexivity|].
  split; [apply (G eq_refl _ eq_refl)|].
  split; [apply (S eq_refl) | apply B; reflexivity].
Defined.
